(** * pulse-mvp: the task extractor of [pages/api/extract.ts]

    A shallow embedding of the text cleaner [tidy], of the heuristic
    extractor [mockExtract], of the model-backed extractor
    [callOpenAIExtract] and of the presentation layer's [cleanFollowUp]
    ([pages/index.tsx]), together with the platform operations they call:
    ECMAScript regular expressions, [String.prototype.replace], [match],
    [trim], [split], [slice] and [JSON.parse]. *)

From Stdlib Require Import Ascii String List NArith Arith Bool Lia DecimalString.
Import ListNotations.

Set Warnings "-register-all".

(** ** Strings

    An ECMAScript string is a finite sequence of 16-bit code units.  The
    regular expressions of the source carry no [u] flag, so every operation
    below works on code units. *)

Definition char := N.
Definition jsstring := list char.

(** A literal of the source, all of whose characters are ASCII. *)
Definition str (s : string) : jsstring :=
  List.map N_of_ascii (list_ascii_of_string s).

Definition ch (a : ascii) : char := N_of_ascii a.

Definition char_in (lo hi c : char) : bool := ((lo <=? c) && (c <=? hi))%N.
Arguments char_in (lo hi c)%_N_scope.

(** WhiteSpace and LineTerminator of ECMA-262: the set matched by [\s] and
    removed by [String.prototype.trim]. *)
Definition is_space (c : char) : bool :=
  (char_in 9 13 c                (* TAB LF VT FF CR *)
   || (c =? 32) || (c =? 160)    (* SP, NBSP *)
   || (c =? 5760)                (* U+1680 *)
   || char_in 8192 8202 c        (* U+2000 .. U+200A *)
   || (c =? 8232) || (c =? 8233) (* LS, PS *)
   || (c =? 8239) || (c =? 8287) (* U+202F, U+205F *)
   || (c =? 12288)               (* U+3000 *)
   || (c =? 65279))%N.           (* U+FEFF *)

Definition is_upper (c : char) : bool := char_in 65 90 c.
Definition is_lower (c : char) : bool := char_in 97 122 c.
Definition is_digit (c : char) : bool := char_in 48 57 c.

(** WordCharacters of ECMA-262 (no [u] flag): [a-zA-Z0-9_]. *)
Definition is_word_char (c : char) : bool :=
  (is_upper c || is_lower c || is_digit c || (c =? 95))%N.

Fixpoint eqs (a b : jsstring) : bool :=
  match a, b with
  | [], [] => true
  | x :: a', y :: b' => (x =? y)%N && eqs a' b'
  | _, _ => false
  end.

Fixpoint drop_spaces (s : jsstring) : jsstring :=
  match s with
  | c :: s' => if is_space c then drop_spaces s' else s
  | [] => []
  end.

(** [s.startsWith(pre)], [s.endsWith(suf)], [s.includes(sub)] *)
Fixpoint starts_with (s pre : jsstring) {struct pre} : bool :=
  match pre, s with
  | [], _ => true
  | p :: pre', c :: s' => (c =? p)%N && starts_with s' pre'
  | _ :: _, [] => false
  end.

Definition ends_with (s suf : jsstring) : bool :=
  starts_with (rev s) (rev suf).

Fixpoint includes (s sub : jsstring) : bool :=
  starts_with s sub ||
  match s with
  | [] => false
  | _ :: s' => includes s' sub
  end.

(** [String.prototype.trim] *)
Definition trim (s : jsstring) : jsstring :=
  rev (drop_spaces (rev (drop_spaces s))).

(** [s.split] at every line feed: [cur] is the piece being read, reversed. *)
Fixpoint split_from (cur : jsstring) (s : jsstring) : list jsstring :=
  match s with
  | [] => [rev cur]
  | c :: s' => if (c =? 10)%N then rev cur :: split_from [] s'
               else split_from (c :: cur) s'
  end.

Definition split_nl (s : jsstring) : list jsstring := split_from [] s.

(** [parts.join(sep)] *)
Fixpoint join (sep : jsstring) (parts : list jsstring) : jsstring :=
  match parts with
  | [] => []
  | [p] => p
  | p :: rest => p ++ sep ++ join sep rest
  end.

(** [s.slice(0, n)] for [0 <= n] *)
Definition slice0 (n : nat) (s : jsstring) : jsstring := firstn n s.

(** [Boolean(s)] on a string *)
Definition truthy (s : jsstring) : bool :=
  match s with [] => false | _ => true end.

(** ** Regular expressions (ECMA-262, 22.2.2), the fragment the source uses *)

Inductive ClassAtom : Type :=
| Lit (c : char)            (* a single character *)
| Range (lo hi : char)      (* lo-hi *)
| EscS                      (* \s *)
| EscNotS.                  (* \S *)

Inductive regex : Type :=
| Empty
| Char (c : char)                   (* a pattern character *)
| Class (items : list ClassAtom)    (* [...] and \s *)
| Seq (r1 r2 : regex)
| Alt (r1 r2 : regex)               (* r1|r2 *)
| Repeat (min : nat) (r : regex)    (* greedy r{min,}: * is 0, + is 1 *)
| Group (n : nat) (r : regex)       (* the n-th capturing group *)
| AssertStart                       (* ^ *)
| WordBoundary.                     (* \b *)

(** Canonicalize (22.2.2.7.3) without the [u] flag: the upper-case mapping of
    a code unit when the flag [i] is set.  Every character and class of the
    source's patterns is ASCII, and a code unit from 128 on never
    canonicalizes to one below 128, so leaving those code units unchanged
    decides the same comparisons. *)
Definition canonicalize (ic : bool) (c : char) : char :=
  if ic && is_lower c then (c - 32)%N else c.

Definition same_char (ic : bool) (a c : char) : bool :=
  (canonicalize ic a =? canonicalize ic c)%N.

(** The code units [lo], [lo+1], ... ([n] of them). *)
Fixpoint enum_from (lo : char) (n : nat) : list char :=
  match n with
  | O => []
  | S n' => lo :: enum_from (N.succ lo) n'
  end.

Definition range_members (lo hi : char) : list char :=
  enum_from lo (N.to_nat (N.succ hi - lo)).

(** CharacterSetMatcher: some member of the set canonicalizes as [c] does.
    White space has no case variants. *)
Definition atom_has (ic : bool) (a : ClassAtom) (c : char) : bool :=
  match a with
  | Lit l => same_char ic l c
  | Range lo hi => existsb (fun l => same_char ic l c) (range_members lo hi)
  | EscS => is_space c
  | EscNotS => negb (is_space c)
  end.

Definition class_has (ic : bool) (items : list ClassAtom) (c : char) : bool :=
  existsb (fun a => atom_has ic a c) items.

(** A match state: the input split at the current end index ([before] is
    reversed) and the captures made so far, latest first. *)
Record State : Type := mkState {
  before : jsstring;
  after : jsstring;
  captures : list (nat * jsstring)
}.

Definition Cont := State -> option State.

Definition char_step (p : char -> bool) (x : State) (c : Cont) : option State :=
  match after x with
  | a :: rest =>
      if p a then c (mkState (a :: before x) rest (captures x)) else None
  | [] => None
  end.

(** The characters consumed between state [x] and the later state [y]. *)
Definition consumed (x y : State) : jsstring :=
  firstn (length (after x) - length (after y)) (after x).

Definition word_before (x : State) : bool :=
  match before x with a :: _ => is_word_char a | [] => false end.

Definition word_after (x : State) : bool :=
  match after x with a :: _ => is_word_char a | [] => false end.

(** RepeatMatcher (22.2.2.3.1) for a greedy quantifier without upper
    bound: [m] is the matcher of the quantified atom.  Once [min] is
    exhausted an iteration that consumes nothing is rejected, so at most
    [min + length (after x)] iterations run and a counter [fuel] above that
    never reaches zero; on the quantifiers of the source the counter
    disappears ([matcher_repeat_class]).  RepeatMatcher also clears, at each
    iteration, the captures of the groups inside the atom; the one such group
    of the source, in [([.]){2,}], is never read. *)
Fixpoint repeat_matcher (m : State -> Cont -> option State)
    (fuel min : nat) (x : State) (c : Cont) {struct fuel} : option State :=
  match fuel with
  | O => None
  | S fuel' =>
      let d := fun y : State =>
        if (min =? 0)%nat && (length (after x) <=? length (after y))%nat
        then None
        else repeat_matcher m fuel' (pred min) y c in
      match min with
      | O => match m x d with
             | Some z => Some z
             | None => c x
             end
      | S _ => m x d
      end
  end.

(** The matcher of a pattern, in the continuation-passing style of
    ECMA-262: [matcher ic r x c] matches [r] at [x] and hands every
    candidate end state to [c], backtracking while [c] fails.  [ic] is the
    flag [i]. *)
Fixpoint matcher (ic : bool) (r : regex) (x : State) (c : Cont) {struct r}
  : option State :=
  match r with
  | Empty => c x
  | Char l => char_step (same_char ic l) x c
  | Class items => char_step (class_has ic items) x c
  | Seq r1 r2 => matcher ic r1 x (fun y => matcher ic r2 y c)
  | Alt r1 r2 =>
      match matcher ic r1 x c with
      | Some z => Some z
      | None => matcher ic r2 x c
      end
  | Repeat min r1 =>
      repeat_matcher (matcher ic r1) (S (min + length (after x))) min x c
  | Group n r1 =>
      matcher ic r1 x
        (fun y => c (mkState (before y) (after y)
                       ((n, consumed x y) :: captures y)))
  | AssertStart => match before x with [] => c x | _ => None end
  | WordBoundary => if xorb (word_before x) (word_after x) then c x else None
  end.

(** The result of a successful [exec]: where the match starts, the matched
    text and the captures. *)
Record Match : Type := mkMatch {
  m_before : jsstring;     (* the input before the match, reversed *)
  m_text : jsstring;       (* $& *)
  m_rest : jsstring;       (* the input after the match *)
  m_captures : list (nat * jsstring)
}.

(** [m[n]]: the text of group [n], [None] for [undefined]. *)
Fixpoint capture (n : nat) (caps : list (nat * jsstring)) : option jsstring :=
  match caps with
  | [] => None
  | (k, s) :: rest => if (k =? n)%nat then Some s else capture n rest
  end.

Definition group (n : nat) (m : Match) : option jsstring :=
  match n with
  | O => Some (m_text m)
  | _ => capture n (m_captures m)
  end.

(** One attempt at the current index. *)
Definition match_at (ic : bool) (r : regex) (bef aft : jsstring) : option Match :=
  let x := mkState bef aft [] in
  match matcher ic r x Some with
  | Some y => Some (mkMatch bef (consumed x y) (after y) (captures y))
  | None => None
  end.

(** RegExpBuiltinExec from index 0 without the flags [g] and [y]: the
    leftmost index at which the matcher succeeds. *)
Fixpoint exec_from (ic : bool) (r : regex) (bef aft : jsstring) : option Match :=
  match match_at ic r bef aft with
  | Some m => Some m
  | None =>
      match aft with
      | [] => None
      | a :: aft' => exec_from ic r (a :: bef) aft'
      end
  end.

(** [s.match(re)] for a pattern without [g], and [re.test(s)]. *)
Definition match_ (ic : bool) (r : regex) (s : jsstring) : option Match :=
  exec_from ic r [] s.

Definition test (ic : bool) (r : regex) (s : jsstring) : bool :=
  match match_ ic r s with Some _ => true | None => false end.

(** A replacement text: literal pieces and [$n]. *)
Inductive ReplItem : Type :=
| RText (s : jsstring)
| RGroup (n : nat).

Definition subst_item (m : Match) (i : ReplItem) : jsstring :=
  match i with
  | RText s => s
  | RGroup n => match group n m with Some s => s | None => [] end
  end.

Definition substitution (repl : list ReplItem) (m : Match) : jsstring :=
  concat (List.map (subst_item m) repl).

(** [s.replace(re, repl)] for a pattern with the flag [g]: every match from
    left to right is replaced; after an empty match the index advances by
    one.  [bef] is the input already passed, reversed.  Every step leaves
    less input, so [fuel] above the length of [aft] is never used up
    ([replace_loop_fuel]). *)
Fixpoint replace_loop (fuel : nat) (ic : bool) (r : regex)
    (repl : list ReplItem) (bef aft : jsstring) : jsstring :=
  match fuel with
  | O => aft
  | S fuel' =>
      let skip :=
        match aft with
        | [] => []
        | a :: aft' => a :: replace_loop fuel' ic r repl (a :: bef) aft'
        end in
      match match_at ic r bef aft with
      | Some m =>
          if (length (m_rest m) <? length aft)%nat
          then substitution repl m ++
               replace_loop fuel' ic r repl (rev (m_text m) ++ bef) (m_rest m)
          else substitution repl m ++ skip
      | None => skip
      end
  end.

Definition replace_all (ic : bool) (r : regex) (repl : list ReplItem)
    (s : jsstring) : jsstring :=
  replace_loop (S (length s)) ic r repl [] s.

(** Helpers to write patterns down as they read in the source. *)
Definition cat (rs : list regex) : regex := fold_right Seq Empty rs.

Definition lit (s : string) : regex := cat (List.map Char (str s)).

Fixpoint alts (rs : list regex) : regex :=
  match rs with
  | [] => Empty
  | [r] => r
  | r :: rest => Alt r (alts rest)
  end.

Definition plus (r : regex) : regex := Repeat 1 r.
Definition star (r : regex) : regex := Repeat 0 r.
Definition esc_s : regex := Class [EscS].

(** ** Completions

    A call either returns normally or throws.  [Error_ msg] is
    [new Error(msg)]; [TypeError] and [SyntaxError] are raised by the
    platform (a property read on [null], a call of a non-function,
    [JSON.parse] on malformed text). *)

Inductive Error : Type :=
| Error_ (msg : jsstring)
| TypeError
| SyntaxError.

Inductive Completion (A : Type) : Type :=
| Normal (a : A)
| Throw (e : Error).

Arguments Normal {A} a.
Arguments Throw {A} e.

Definition bind {A B : Type} (m : Completion A) (f : A -> Completion B)
  : Completion B :=
  match m with
  | Normal a => f a
  | Throw e => Throw e
  end.

Notation "x <- m ;; f" := (bind m (fun x => f))
  (at level 61, m at next level, right associativity).

(** [try { body } catch { handler }] *)
Definition try_catch {A : Type} (body : Completion A)
    (handler : Error -> Completion A) : Completion A :=
  match body with
  | Normal a => Normal a
  | Throw e => handler e
  end.

(** [for (const x of xs) { acc = body(acc, x) }] *)
Fixpoint for_of {A B : Type} (xs : list A) (body : B -> A -> Completion B)
    (acc : B) : Completion B :=
  match xs with
  | [] => Normal acc
  | x :: rest => acc' <- body acc x ;; for_of rest body acc'
  end.

(** [m[n]] on the result of [match]: reading an index of [null] throws. *)
Definition index (m : option Match) (n : nat) : Completion (option jsstring) :=
  match m with
  | Some m' => Normal (group n m')
  | None => Throw TypeError
  end.

Definition is_match (m : option Match) : bool :=
  match m with Some _ => true | None => false end.

(** [a || b] on two match results *)
Definition or_else (a b : option Match) : option Match :=
  match a with Some _ => a | None => b end.

(** ** The data model *)

Record Task : Type := mkTask {
  title : jsstring;
  assignee : option jsstring;
  due : option jsstring;
  priority : option jsstring
}.

Record ResponseBody (T : Type) : Type := mkResponseBody {
  tasks : T;
  followUp : jsstring
}.

Arguments mkResponseBody {T} tasks followUp.
Arguments tasks {T} r.
Arguments followUp {T} r.

(** ** [tidy] (extract.ts, lines 13-19) *)

(** [/\s+([.,;:!?])/g] *)
Definition re_space_punct : regex :=
  Seq (plus esc_s)
      (Group 1 (Class [Lit (ch "."); Lit (ch ","); Lit (ch ";");
                       Lit (ch ":"); Lit (ch "!"); Lit (ch "?")])).

(** [/([.]){2,}/g] *)
Definition re_periods : regex := Repeat 2 (Group 1 (Class [Lit (ch ".")])).

(** [/\s{2,}/g] *)
Definition re_spaces : regex := Repeat 2 esc_s.

Definition tidy (text : jsstring) : jsstring :=
  trim
    (replace_all false re_spaces [RText (str " ")]
       (replace_all false re_periods [RText (str ".")]
          (replace_all false re_space_punct [RGroup 1] text))).

(** ** [cleanFollowUp] (index.tsx, lines 10-17) *)

Definition cleanFollowUp (text : jsstring) : jsstring :=
  trim
    (replace_all false (Repeat 2 esc_s) [RText (str " ")]
       (replace_all false (Repeat 2 (Group 1 (Class [Lit (ch ".")])))
          [RText (str ".")]
          (replace_all false
             (Seq (plus esc_s)
                  (Group 1 (Class [Lit (ch "."); Lit (ch ","); Lit (ch ";");
                                   Lit (ch ":"); Lit (ch "!"); Lit (ch "?")])))
             [RGroup 1] text))).

(** ** [mockExtract] (extract.ts, lines 85-121) *)

(** [/^[-*]\s*/] *)
Definition re_bullet : regex :=
  cat [AssertStart; Class [Lit (ch "-"); Lit (ch "*")]; star esc_s].

(** [/\b(action|action:|please|will|assign|assigned|due|deliver|todo)\b/i] *)
Definition re_action : regex :=
  cat [WordBoundary;
       Group 1 (alts [lit "action"; lit "action:"; lit "please"; lit "will";
                      lit "assign"; lit "assigned"; lit "due"; lit "deliver";
                      lit "todo"]);
       WordBoundary].

(** [/\b(?:assigned to|assign to|by)\s+([A-Z][a-zA-Z]+)/i] *)
Definition re_assigned : regex :=
  cat [WordBoundary;
       alts [lit "assigned to"; lit "assign to"; lit "by"];
       plus esc_s;
       Group 1 (Seq (Class [Range (ch "A") (ch "Z")])
                    (plus (Class [Range (ch "a") (ch "z");
                                  Range (ch "A") (ch "Z")])))].

(** [/\b([A-Z][a-z]{2,})\b/] *)
Definition re_capword : regex :=
  cat [WordBoundary;
       Group 1 (Seq (Class [Range (ch "A") (ch "Z")])
                    (Repeat 2 (Class [Range (ch "a") (ch "z")])));
       WordBoundary].

(** [/\b(by|before|on|due)\s+([A-Za-z0-9 ,.-]+)/i] *)
Definition re_due : regex :=
  cat [WordBoundary;
       Group 1 (alts [lit "by"; lit "before"; lit "on"; lit "due"]);
       plus esc_s;
       Group 2 (plus (Class [Range (ch "A") (ch "Z"); Range (ch "a") (ch "z");
                             Range (ch "0") (ch "9"); Lit (ch " ");
                             Lit (ch ","); Lit (ch "."); Lit (ch "-")]))].

Definition fallback_title : jsstring :=
  str "Review meeting notes and propose next steps".

(** The test of line 95: a bullet marker heads the line, or the line holds
    one of the action words. *)
Definition action_line (line : jsstring) : bool :=
  test false re_bullet line || test true re_action line.

(** The body of the loop over the lines (lines 93-111): [acc] is [tasks]. *)
Definition extract_line (acc : list Task) (line : jsstring)
  : Completion (list Task) :=
  if action_line line then
    let cleaned := replace_all false re_bullet [] line in
    let assigneeMatch :=
      or_else (match_ true re_assigned cleaned)
              (match_ false re_capword cleaned) in
    assignee <- (if is_match assigneeMatch then index assigneeMatch 1
                 else Normal None) ;;
    let dueMatch := match_ true re_due cleaned in
    due <- (if is_match dueMatch then index dueMatch 2 else Normal None) ;;
    let title :=
      if (250 <? length cleaned)%nat
      then slice0 247 cleaned ++ str "..."
      else cleaned in
    Normal (acc ++ [mkTask title assignee due None])
  else Normal acc.

Definition follow_head : jsstring :=
  str "Thanks everyone for the meeting. Next actions: ".

Definition follow_tail : jsstring :=
  str ". Please confirm owners and timelines.".

(** Lines 86-89: the trimmed, non-empty lines of the text. *)
Definition lines_of (text : jsstring) : list jsstring :=
  filter truthy (List.map trim (split_nl text)).

Definition mockExtract (text : jsstring)
  : Completion (ResponseBody (list Task)) :=
  let lines := lines_of text in
  found <- for_of lines extract_line [] ;;
  let tasks :=
    if (length found =? 0)%nat
    then found ++ [mkTask fallback_title None None None]
    else found in
  let followUp :=
    follow_head ++ join (str "; ") (List.map title tasks) ++ follow_tail in
  let followUp := tidy followUp in
  Normal (mkResponseBody tasks followUp).

(** ** [JSON.parse] (ECMA-262, 25.5.1; the grammar of ECMA-404) *)

Module JSON.

Inductive value : Type :=
| Null
| Bool (b : bool)
| Number (lexeme : jsstring)     (* the numeral as written *)
| String_ (s : jsstring)
| Array (items : list value)
| Object (members : list (jsstring * value)).

Definition is_ws (c : char) : bool :=
  ((c =? 9) || (c =? 10) || (c =? 13) || (c =? 32))%N.

Fixpoint skip_ws (s : jsstring) : jsstring :=
  match s with
  | c :: s' => if is_ws c then skip_ws s' else s
  | [] => []
  end.

Definition hex_digit (c : char) : option N :=
  if is_digit c then Some (c - 48)%N
  else if char_in 97 102 c then Some (c - 87)%N
  else if char_in 65 70 c then Some (c - 55)%N
  else None.

Definition hex4 (a b c d : char) : option char :=
  match hex_digit a, hex_digit b, hex_digit c, hex_digit d with
  | Some x, Some y, Some z, Some w => Some (((x * 16 + y) * 16 + z) * 16 + w)%N
  | _, _, _, _ => None
  end.

(** The character that a one-letter escape stands for. *)
Definition unescape (e : char) : option char :=
  if (e =? 34)%N then Some 34%N           (* quote *)
  else if (e =? 92)%N then Some 92%N      (* backslash *)
  else if (e =? 47)%N then Some 47%N      (* slash *)
  else if (e =? 98)%N then Some 8%N       (* b: backspace *)
  else if (e =? 102)%N then Some 12%N     (* f: form feed *)
  else if (e =? 110)%N then Some 10%N     (* n: line feed *)
  else if (e =? 114)%N then Some 13%N     (* r: carriage return *)
  else if (e =? 116)%N then Some 9%N      (* t: tab *)
  else None.

(** The characters of a string literal after its opening quote, up to the
    closing one; [acc] is the decoded text so far, reversed.  A backslash
    starts an escape, [u] with four hexadecimal digits or one letter;
    control characters are not allowed. *)
Fixpoint string_body (s : jsstring) (acc : jsstring)
  : option (jsstring * jsstring) :=
  match s with
  | [] => None
  | c :: rest =>
      if (c =? 34)%N then Some (rev acc, rest)
      else if (c =? 92)%N then
        match rest with
        | [] => None
        | e :: rest1 =>
            if (e =? 117)%N then
              match rest1 with
              | h1 :: h2 :: h3 :: h4 :: rest2 =>
                  match hex4 h1 h2 h3 h4 with
                  | Some u => string_body rest2 (u :: acc)
                  | None => None
                  end
              | _ => None
              end
            else
              match unescape e with
              | Some u => string_body rest1 (u :: acc)
              | None => None
              end
        end
      else if (c <? 32)%N then None
      else string_body rest (c :: acc)
  end.

Fixpoint digits (s : jsstring) : jsstring * jsstring :=
  match s with
  | c :: s' =>
      if is_digit c then let (ds, rest) := digits s' in (c :: ds, rest)
      else ([], s)
  | [] => ([], [])
  end.

(** The parts of a numeral: an optional minus sign; 0, or a digit from 1
    to 9 with further digits; an optional fraction, a point and digits; an
    optional exponent, e or E, an optional sign and digits. *)
Definition sign_part (s : jsstring) : jsstring * jsstring :=
  match s with
  | c :: s' => if (c =? 45)%N then ([c], s') else ([], s)
  | [] => ([], s)
  end.

Definition int_part (s : jsstring) : option (jsstring * jsstring) :=
  match s with
  | c :: s' =>
      if (c =? 48)%N then Some ([c], s')
      else if is_digit c then
        let (ds, rest) := digits s' in Some (c :: ds, rest)
      else None
  | [] => None
  end.

Definition frac_part (s : jsstring) : option (jsstring * jsstring) :=
  match s with
  | c :: s' =>
      if (c =? 46)%N then
        match digits s' with
        | ([], _) => None
        | (ds, rest) => Some (c :: ds, rest)
        end
      else Some ([], s)
  | [] => Some ([], s)
  end.

Definition exp_part (s : jsstring) : option (jsstring * jsstring) :=
  match s with
  | e :: s' =>
      if (e =? 101)%N || (e =? 69)%N then
        let (sg, s'') :=
          match s' with
          | g :: t => if (g =? 43)%N || (g =? 45)%N then ([g], t) else ([], s')
          | [] => ([], s')
          end in
        match digits s'' with
        | ([], _) => None
        | (ds, rest) => Some (e :: sg ++ ds, rest)
        end
      else Some ([], s)
  | [] => Some ([], s)
  end.

Definition number (s : jsstring) : option (jsstring * jsstring) :=
  let (sg, s1) := sign_part s in
  match int_part s1 with
  | None => None
  | Some (ip, s2) =>
      match frac_part s2 with
      | None => None
      | Some (fp, s3) =>
          match exp_part s3 with
          | None => None
          | Some (ep, s4) => Some (sg ++ ip ++ fp ++ ep, s4)
          end
      end
  end.

(** A value at the head of [s], then the rest of the input.  [elements] and
    [members] read what follows [[] and [{] once the empty case is ruled
    out.  Every call either has consumed a character since the last one or
    is the first for its bracket, so [fuel] twice the length of the input is
    never used up ([parse_value_fuel] below). *)
Fixpoint parse_value (fuel : nat) (s : jsstring) {struct fuel}
  : option (value * jsstring) :=
  match fuel with
  | O => None
  | S fuel' =>
      if starts_with s (str "null") then Some (Null, skipn 4 s)
      else if starts_with s (str "true") then Some (Bool true, skipn 4 s)
      else if starts_with s (str "false") then Some (Bool false, skipn 5 s)
      else
        match s with
        | [] => None
        | c :: rest =>
            if (c =? 34)%N then
              match string_body rest [] with
              | Some (t, rest') => Some (String_ t, rest')
              | None => None
              end
            else if (c =? 91)%N then
              match skip_ws rest with
              | [] => None
              | c' :: rest' =>
                  if (c' =? 93)%N then Some (Array [], rest')
                  else
                    match elements fuel' (c' :: rest') [] with
                    | Some (items, rest'') => Some (Array items, rest'')
                    | None => None
                    end
              end
            else if (c =? 123)%N then
              match skip_ws rest with
              | [] => None
              | c' :: rest' =>
                  if (c' =? 125)%N then Some (Object [], rest')
                  else
                    match members fuel' (c' :: rest') [] with
                    | Some (ms, rest'') => Some (Object ms, rest'')
                    | None => None
                    end
              end
            else
              match number s with
              | Some (lexeme, rest') => Some (Number lexeme, rest')
              | None => None
              end
        end
  end

with elements (fuel : nat) (s : jsstring) (acc : list value) {struct fuel}
  : option (list value * jsstring) :=
  match fuel with
  | O => None
  | S fuel' =>
      match parse_value fuel' s with
      | Some (v, rest) =>
          match skip_ws rest with
          | [] => None
          | c :: rest' =>
              if (c =? 44)%N then elements fuel' (skip_ws rest') (v :: acc)
              else if (c =? 93)%N then Some (rev (v :: acc), rest')
              else None
          end
      | None => None
      end
  end

with members (fuel : nat) (s : jsstring) (acc : list (jsstring * value))
    {struct fuel} : option (list (jsstring * value) * jsstring) :=
  match fuel with
  | O => None
  | S fuel' =>
      match s with
      | [] => None
      | q :: s1 =>
          if (q =? 34)%N then
            match string_body s1 [] with
            | Some (key, s2) =>
                match skip_ws s2 with
                | [] => None
                | c :: s3 =>
                    if (c =? 58)%N then
                      match parse_value fuel' (skip_ws s3) with
                      | Some (v, s4) =>
                          match skip_ws s4 with
                          | [] => None
                          | c' :: s5 =>
                              if (c' =? 44)%N
                              then members fuel' (skip_ws s5) ((key, v) :: acc)
                              else if (c' =? 125)%N
                              then Some (rev ((key, v) :: acc), s5)
                              else None
                          end
                      | None => None
                      end
                    else None
                end
            | None => None
            end
          else None
      end
  end.

(** [JSON.parse(text)]: one value between optional white space. *)
Definition parse (text : jsstring) : Completion value :=
  match parse_value (2 * length text + 2) (skip_ws text) with
  | Some (v, rest) =>
      match skip_ws rest with
      | [] => Normal v
      | _ => Throw SyntaxError
      end
  | None => Throw SyntaxError
  end.

(** The own property [key] of an object; of two members with one key the
    later one stays. *)
Fixpoint lookup (key : jsstring) (ms : list (jsstring * value))
  : option value :=
  match ms with
  | [] => None
  | (k, v) :: rest =>
      match lookup key rest with
      | Some v' => Some v'
      | None => if eqs k key then Some v else None
      end
  end.

(** [v.key] for a name that no built-in prototype defines ([tasks],
    [followUp]): [None] is [undefined]; reading a property of [null]
    throws. *)
Definition get (v : value) (key : jsstring) : Completion (option value) :=
  match v with
  | Null => Throw TypeError
  | Object ms => Normal (lookup key ms)
  | _ => Normal None
  end.

(** [v ?? d] *)
Definition nullish_or (v : option value) (d : value) : value :=
  match v with
  | None | Some Null => d
  | Some v' => v'
  end.

End JSON.

(** ** [callOpenAIExtract] (extract.ts, lines 28-79) *)

(** A literal of the source in which ['] stands for the double quote. *)
Definition strq (s : string) : jsstring :=
  List.map (fun c => if (c =? 39)%N then 34%N else c) (str s).

(** What the function reads of the service's answer: [resp.ok],
    [resp.status], and what [await resp.text()] and [await resp.json()]
    give, each of which may throw instead. *)
Record Response : Type := mkResponse {
  ok : bool;
  status : N;
  body : Completion jsstring;
  json : Completion JSON.value
}.

(** [v?.key] for a name that no built-in prototype defines ([choices],
    [message], [content]); [None] is [undefined].  Only an object has such
    a member. *)
Definition member (v : option JSON.value) (key : jsstring)
  : option JSON.value :=
  match v with
  | Some (JSON.Object ms) => JSON.lookup key ms
  | _ => None
  end.

(** [v?.[0]]: the first item of an array, the first character of a string,
    the member named [0] of an object. *)
Definition index0 (v : option JSON.value) : option JSON.value :=
  match v with
  | Some (JSON.Array (x :: _)) => Some x
  | Some (JSON.String_ (c :: _)) => Some (JSON.String_ [c])
  | Some (JSON.Object ms) => JSON.lookup (str "0") ms
  | _ => None
  end.

(** Line 59: [data?.choices?.[0]?.message?.content], [undefined] or any
    value. *)
Definition content_of (data : JSON.value) : option JSON.value :=
  member (member (index0 (member (Some data) (str "choices")))
                 (str "message"))
         (str "content").

(** ToString (ECMA-262, 7.1.17) of a value built from JSON text, which
    [JSON.parse] applies to its argument.  [number_to_string] is the
    platform's printing of the number that a numeral denotes.  An array is
    printed as its items joined by commas, [null] as nothing; an object as
    [[object Object]], unless a member of its own hides [toString], which
    leaves no function to call. *)
Fixpoint to_string (number_to_string : jsstring -> jsstring)
    (v : JSON.value) : Completion jsstring :=
  match v with
  | JSON.Null => Normal (str "null")
  | JSON.Bool true => Normal (str "true")
  | JSON.Bool false => Normal (str "false")
  | JSON.Number l => Normal (number_to_string l)
  | JSON.String_ s => Normal s
  | JSON.Array items =>
      (fix join (xs : list JSON.value) : Completion jsstring :=
         match xs with
         | [] => Normal []
         | x :: rest =>
             a <- match x with
                  | JSON.Null => Normal []
                  | _ => to_string number_to_string x
                  end ;;
             match rest with
             | [] => Normal a
             | _ => b <- join rest ;; Normal (a ++ str "," ++ b)
             end
         end) items
  | JSON.Object ms =>
      match JSON.lookup (str "toString") ms with
      | Some _ => Throw TypeError
      | None => Normal (str "[object Object]")
      end
  end.

(** [/\{[\s\S]*\}/] *)
Definition re_json : regex :=
  cat [Char (ch "{"); star (Class [EscS; EscNotS]); Char (ch "}")].

Definition prompt_of (text : jsstring) : jsstring :=
  str "You are a JSON extractor. Given meeting notes, return ONLY valid JSON with this shape:"
  ++ [10%N]
  ++ strq "{'tasks':[{'title':'...','assignee':'...','due':'...','priority':'...'}],'followUp':'...'}"
  ++ [10%N]
  ++ str "Extract tasks (short title), suggest a likely assignee if present, suggest a due date if present or plausible, and write a concise follow-up (1-2 sentences). Return only valid JSON."
  ++ [10%N; 10%N]
  ++ str "Notes:" ++ [10%N]
  ++ text ++ [10%N].

(** [tidy(v)] on a value that need not be a string: [v.replace] is not a
    function unless [v] is one. *)
Definition tidy_value (v : JSON.value) : Completion jsstring :=
  match v with
  | JSON.String_ s => Normal (tidy s)
  | _ => Throw TypeError
  end.

(** The object literal of lines 65 and 72: [tasks] is [parsed.tasks ?? []]
    and [followUp] is [tidy] of [parsed.followUp] or of the empty string. *)
Definition response_of (parsed : JSON.value)
  : Completion (ResponseBody JSON.value) :=
  t <- JSON.get parsed (str "tasks") ;;
  f <- JSON.get parsed (str "followUp") ;;
  followUp <- tidy_value (JSON.nullish_or f (JSON.String_ [])) ;;
  Normal (mkResponseBody (JSON.nullish_or t (JSON.Array [])) followUp).

Definition msg_no_key : jsstring := str "OpenAI API key not set".
Definition msg_unparsed : jsstring :=
  str "OpenAI response could not be parsed as JSON".

Definition decimal (n : N) : jsstring :=
  str (DecimalString.NilEmpty.string_of_uint (N.to_uint n)).

(** Lines 61-78: the two attempts at reading the content. *)
Definition parse_content (content : jsstring)
  : Completion (ResponseBody JSON.value) :=
  try_catch
    (parsed <- JSON.parse content ;; response_of parsed)
    (fun _ =>
       let jsonMatch := match_ false re_json content in
       match jsonMatch with
       | Some m =>
           try_catch
             (parsed <- JSON.parse (m_text m) ;; response_of parsed)
             (fun _ => Throw (Error_ msg_unparsed))
       | None => Throw (Error_ msg_unparsed)
       end).

(** Lines 61-78 on a content that need not be a string.  [JSON.parse]
    reads the content through ToString; [content.match] of line 68, which
    stands in the handler of the outer [try] and in no [try] of its own, is
    a function only when the content is a string. *)
Definition read_content (number_to_string : jsstring -> jsstring)
    (content : JSON.value) : Completion (ResponseBody JSON.value) :=
  match content with
  | JSON.String_ s => parse_content s
  | _ =>
      try_catch
        (s <- to_string number_to_string content ;;
         parsed <- JSON.parse s ;;
         response_of parsed)
        (fun _ => Throw TypeError)
  end.

(** [OPENAI_API_KEY] is the module's constant read from the environment;
    [fetch] is the generation service, as a function of the prompt;
    [number_to_string] is the platform's printing of numbers. *)
Definition callOpenAIExtract (number_to_string : jsstring -> jsstring)
    (OPENAI_API_KEY : jsstring)
    (fetch : jsstring -> Completion Response) (text : jsstring)
  : Completion (ResponseBody JSON.value) :=
  if negb (truthy OPENAI_API_KEY) then Throw (Error_ msg_no_key)
  else
    resp <- fetch (prompt_of text) ;;
    if negb (ok resp)
    then
      body <- body resp ;;
      Throw (Error_ (str "OpenAI error: " ++ decimal (status resp)
                     ++ str " " ++ body))
    else
      data <- json resp ;;
      let content := JSON.nullish_or (content_of data) (JSON.String_ []) in
      read_content number_to_string content.

(** ** Vocabulary of the statements *)

Definition hd_sat (p : char -> bool) (s : jsstring) : bool :=
  match s with
  | c :: _ => p c
  | [] => false
  end.

(** Some character satisfying [p] is directly followed by one satisfying
    [q]. *)
Fixpoint adj (p q : char -> bool) (s : jsstring) : bool :=
  match s with
  | [] => false
  | c :: s' => (p c && hd_sat q s') || adj p q s'
  end.

Definition period : char := 46%N.
Definition space : char := 32%N.

Definition is_period (c : char) : bool := (period =? c)%N.

(** The punctuation marks of [tidy]'s first pattern. *)
Definition is_punct (c : char) : bool :=
  class_has false [Lit (ch "."); Lit (ch ","); Lit (ch ";");
                   Lit (ch ":"); Lit (ch "!"); Lit (ch "?")] c.

(** The markers of the bullet pattern. *)
Definition is_bullet (c : char) : bool :=
  class_has false [Lit (ch "-"); Lit (ch "*")] c.

Definition double_period (s : jsstring) : bool := adj is_period is_period s.
Definition double_space (s : jsstring) : bool := adj is_space is_space s.
Definition space_before_punct (s : jsstring) : bool := adj is_space is_punct s.

(** Text that [tidy] has nothing to do on. *)
Definition normalized (s : jsstring) : Prop :=
  space_before_punct s = false /\ double_period s = false /\
  double_space s = false /\
  hd_sat is_space s = false /\ hd_sat is_space (rev s) = false.

(** ** The three replacements of [tidy], written as direct recursions

    Each is proved below to compute what [replace_all] computes with the
    corresponding pattern. *)

(** The mark that follows the white space heading [s], and what follows
    it. *)
Fixpoint punct_after (s : jsstring) : option (char * jsstring) :=
  match s with
  | c :: s' =>
      if is_punct c then Some (c, s')
      else if is_space c then punct_after s'
      else None
  | [] => None
  end.

Definition is_some {A : Type} (o : option A) : bool :=
  match o with Some _ => true | None => false end.

(** White space is dropped when the run it belongs to ends at a mark. *)
Fixpoint strip_space_punct (s : jsstring) : jsstring :=
  match s with
  | [] => []
  | c :: s' =>
      if is_space c && is_some (punct_after s')
      then strip_space_punct s'
      else c :: strip_space_punct s'
  end.

(** A run of two or more characters satisfying [p] becomes the single
    character [w]; [inrun] tells that the character before [s] belonged to
    such a run. *)
Fixpoint squeeze (p : char -> bool) (w : char) (inrun : bool) (s : jsstring)
  : jsstring :=
  match s with
  | [] => []
  | c :: s' =>
      if p c then
        if hd_sat p s' then squeeze p w true s'
        else (if inrun then w else c) :: squeeze p w false s'
      else c :: squeeze p w false s'
  end.

Fixpoint drop_while (p : char -> bool) (s : jsstring) : jsstring :=
  match s with
  | c :: s' => if p c then drop_while p s' else s
  | [] => []
  end.

Fixpoint take_while (p : char -> bool) (s : jsstring) : jsstring :=
  match s with
  | c :: s' => if p c then c :: take_while p s' else []
  | [] => []
  end.

(** A matcher that consumes one character satisfying [p] and updates the
    captures with [g]: the shape of [\s], of [[.]] and of [([.])]. *)
Definition single (p : char -> bool)
    (g : list (nat * jsstring) -> char -> list (nat * jsstring))
    (x : State) (d : Cont) : option State :=
  match after x with
  | a :: rest =>
      if p a then d (mkState (a :: before x) rest (g (captures x) a)) else None
  | [] => None
  end.

(** What [repeat_matcher] computes on such a matcher: the longest run
    first, then shorter ones down to [min]. *)
Fixpoint greedy (p : char -> bool)
    (g : list (nat * jsstring) -> char -> list (nat * jsstring))
    (min : nat) (bef aft : jsstring) (caps : list (nat * jsstring))
    (c : Cont) : option State :=
  let here := if (min =? 0)%nat then c (mkState bef aft caps) else None in
  match aft with
  | a :: rest =>
      if p a then
        match greedy p g (pred min) (a :: bef) rest (g caps a) c with
        | Some z => Some z
        | None => here
        end
      else here
  | [] => here
  end.

(** The state after the white space heading [aft] and the mark behind it. *)
Fixpoint state_after_punct (bef aft : jsstring) (caps : list (nat * jsstring))
  : option State :=
  match aft with
  | c :: s' =>
      if is_punct c then Some (mkState (c :: bef) s' ((1, [c]) :: caps))
      else if is_space c then state_after_punct (c :: bef) s' caps
      else None
  | [] => None
  end.

(** A predicate [P] that cannot tell [w] from the characters satisfying [p],
    which [squeeze p w] replaces by [w]. *)
Definition blind (p : char -> bool) (w : char) (P : char -> bool) : Prop :=
  forall c, p c = true -> P c = P w.

(** The continuations behind the quantifiers of [tidy]'s first pattern and
    of the pattern of line 68. *)

Definition punct_cont : Cont :=
  fun y =>
    matcher false
      (Group 1 (Class [Lit (ch "."); Lit (ch ","); Lit (ch ";");
                       Lit (ch ":"); Lit (ch "!"); Lit (ch "?")])) y Some.


(** ** [mockExtract] as a function of its lines *)

Definition opt_group (n : nat) (m : option Match) : option jsstring :=
  match m with
  | Some m' => group n m'
  | None => None
  end.

(** The task that the loop body appends for an action line. *)
Definition task_of (line : jsstring) : Task :=
  let cleaned := replace_all false re_bullet [] line in
  mkTask
    (if (250 <? length cleaned)%nat
     then slice0 247 cleaned ++ str "..."
     else cleaned)
    (opt_group 1 (or_else (match_ true re_assigned cleaned)
                          (match_ false re_capword cleaned)))
    (opt_group 2 (match_ true re_due cleaned))
    None.

Definition found_tasks (text : jsstring) : list Task :=
  List.map task_of (filter action_line (lines_of text)).

Definition fallback_task : Task := mkTask fallback_title None None None.

Definition tasks_of (text : jsstring) : list Task :=
  match found_tasks text with
  | [] => [fallback_task]
  | found => found
  end.

Definition joined_titles (ts : list Task) : jsstring :=
  join (str "; ") (List.map title ts).

(** ** The parts of the follow-up template *)

Definition request : jsstring := str "Please confirm owners and timelines.".
Definition head1 : jsstring :=
  str "Thanks everyone for the meeting. Next actions:".
Definition tail1 : jsstring := str " Please confirm owners and timelines.".

(** The head of the template as [tidy]'s first step leaves it: without its
    final space when a punctuation mark follows. *)
Definition head_for (j : jsstring) : jsstring :=
  if hd_sat is_punct j then head1 else follow_head.

(** ** The text between braces *)



(** ** Inputs of the examples *)

(** The body of a chat completion whose first choice has this content. *)
Definition completion_of (content : JSON.value) : JSON.value :=
  JSON.Object
    [(str "choices",
      JSON.Array
        [JSON.Object
           [(str "index", JSON.Number (str "0"));
            (str "message",
             JSON.Object [(str "role", JSON.String_ (str "assistant"));
                          (str "content", content)])]])].

(** An answer with status 200 and that body; its text is left empty. *)
Definition answer_of (content : JSON.value) : Response :=
  mkResponse true 200 (Normal []) (Normal (completion_of content)).




Definition busy_answer : Response :=
  mkResponse false 429 (Normal (str "rate limit reached")) (Throw SyntaxError).

Definition wordy_answer : Response :=
  answer_of
    (JSON.String_
       (strq "{'tasks':[{'title':'call Bob'}],'followUp':' Call Bob ..  soon . '}")).

(** An answer whose body is no JSON text, and one whose content is a list
    of parts and no string. *)
Definition broken_answer : Response :=
  mkResponse true 200 (Normal (str "<html>Bad gateway</html>"))
    (Throw SyntaxError).

Definition parts_answer : Response :=
  answer_of (JSON.Array [JSON.Object [(str "type", JSON.String_ (str "text"))]]).

(** A printing of numbers for the examples, none of which prints one: the
    numeral as it is written. *)
Definition as_written (numeral : jsstring) : jsstring := numeral.


Definition is_string (v : JSON.value) : bool :=
  match v with
  | JSON.String_ _ => true
  | _ => false
  end.

Definition bullet_marker (star spaced : bool) : jsstring :=
  (if star then str "*" else str "-") ++ (if spaced then str " " else []).

Definition sample_line : jsstring :=
  str "- Action: Integrate payments API by next Wednesday. Assigned to Ravi.".

Definition priya_line : jsstring :=
  str "- Action: Ship the report by Monday. Assigned to Priya.".

(** ** Further vocabulary *)

(** A character that is neither white space nor a period: [tidy] removes
    and rewrites nothing else. *)
Definition solid (c : char) : bool := negb (is_space c || is_period c).

Definition blank (s : jsstring) : bool := forallb is_space s.

Definition is_letter (c : char) : bool := is_upper c || is_lower c.

(** The characters of the class [[A-Za-z0-9 ,.-]]. *)
Definition is_due_char (c : char) : bool :=
  (is_upper c || is_lower c || is_digit c
   || (c =? 32) || (c =? 44) || (c =? 46) || (c =? 45))%N.

(** The action words of the pattern of line 95. *)
Definition action_words : list jsstring :=
  [str "action"; str "please"; str "will"; str "assign"; str "assigned";
   str "due"; str "deliver"; str "todo"].

(** The same word but for the case of its letters. *)
Definition same_word (w k : jsstring) : Prop :=
  List.map (canonicalize true) w = List.map (canonicalize true) k.


Definition has_line_feed (s : jsstring) : bool :=
  existsb (fun c => (c =? 10)%N) s.

(** What [mockExtract] answers when it finds no action line. *)
Definition fallback_answer : ResponseBody (list Task) :=
  mkResponseBody [mkTask fallback_title None None None]
    (str "Thanks everyone for the meeting. Next actions: Review meeting notes and propose next steps. Please confirm owners and timelines.").

(** ** The page (index.tsx, lines 19-43)

    The state of the component [Home] and its function [handleAnalyze].
    [result] holds whatever the server answered, a JSON value, and [null]
    at first.  [alerts] lists the errors that [alert] has shown, the last
    one first.  The request and the reading of its answer, [await fetch]
    and [await res.json()], are a function of the text sent that returns
    the answer or throws; the truth value of a number is the platform's. *)

Module Home.

Record UI : Type := mkUI {
  input : jsstring;
  result : JSON.value;
  loading : bool;
  alerts : list Error
}.

Definition initial : UI := mkUI [] JSON.Null false [].

Definition setInput (v : jsstring) (ui : UI) : UI :=
  mkUI v (result ui) (loading ui) (alerts ui).

Definition setResult (v : JSON.value) (ui : UI) : UI :=
  mkUI (input ui) v (loading ui) (alerts ui).

Definition setLoading (b : bool) (ui : UI) : UI :=
  mkUI (input ui) (result ui) b (alerts ui).

Definition alert (e : Error) (ui : UI) : UI :=
  mkUI (input ui) (result ui) (loading ui) (e :: alerts ui).

(** [o.key = v] on the members of an object: the member that a read of
    [key] finds takes the value; a new member goes to the end. *)
Fixpoint set_member (key : jsstring) (v : JSON.value)
    (ms : list (jsstring * JSON.value)) : list (jsstring * JSON.value) :=
  match ms with
  | [] => [(key, v)]
  | (k, x) :: rest =>
      match JSON.lookup key rest with
      | Some _ => (k, x) :: set_member key v rest
      | None =>
          if eqs k key then (k, v) :: rest
          else (k, x) :: set_member key v rest
      end
  end.

(** [cleanFollowUp(v)] on a value that need not be a string. *)
Definition cleanFollowUp_value (v : option JSON.value) : Completion jsstring :=
  match v with
  | Some (JSON.String_ s) => Normal (cleanFollowUp s)
  | _ => Throw TypeError
  end.

Section Analyze.

(** ToBoolean of the number that a numeral denotes. *)
Variable number_to_boolean : jsstring -> bool.

(** [await fetch("/api/extract", ...)] followed by [await res.json()]. *)
Variable post_extract : jsstring -> Completion JSON.value.

(** ToBoolean of a value read from an object; [None] is [undefined]. *)
Definition truthy (v : option JSON.value) : bool :=
  match v with
  | None => false
  | Some JSON.Null => false
  | Some (JSON.Bool b) => b
  | Some (JSON.Number l) => number_to_boolean l
  | Some (JSON.String_ s) => negb (eqs s [])
  | Some (JSON.Array _) => true
  | Some (JSON.Object _) => true
  end.

(** Line 36.  Only an object has a member [followUp]: on [null], on an
    array and on a string, a number or a boolean, [data?.followUp] is
    [undefined]. *)
Definition clean_data (data : JSON.value) : Completion JSON.value :=
  match data with
  | JSON.Object ms =>
      let f := JSON.lookup (str "followUp") ms in
      if truthy f then
        x <- cleanFollowUp_value f ;;
        Normal (JSON.Object (set_member (str "followUp") (JSON.String_ x) ms))
      else Normal data
  | _ => Normal data
  end.

(** [text ?? input] *)
Definition payload (text : option jsstring) (ui : UI) : jsstring :=
  match text with
  | Some t => t
  | None => input ui
  end.

Definition handleAnalyze (text : option jsstring) (ui : UI) : UI :=
  let payloadText := payload text ui in
  if eqs payloadText [] then ui
  else
    let ui1 := setLoading true ui in
    let ui2 :=
      match (data <- post_extract payloadText ;; clean_data data) with
      | Normal data => setResult data ui1
      | Throw err => alert err ui1
      end in
    setLoading false ui2.

End Analyze.

End Home.

(** * Proofs *)

(** ** Character classes *)

Lemma is_punct_eq (c : char) :
  is_punct c =
  ((46 =? c) || ((44 =? c) || ((59 =? c) || ((58 =? c) || ((33 =? c)
   || ((63 =? c) || false))))))%N.
Proof. reflexivity. Qed.

Lemma space_not_punct (c : char) : is_space c = true -> is_punct c = false.
Proof.
  intros H. rewrite is_punct_eq.
  repeat match goal with
  | |- context [(?k =? c)%N] =>
      destruct (N.eqb_spec k c) as [<- | _]; [discriminate H |]
  end.
  reflexivity.
Qed.

Lemma period_is_punct (c : char) : is_period c = true -> is_punct c = true.
Proof.
  unfold is_period. intros H. apply N.eqb_eq in H. subst c. reflexivity.
Qed.

Lemma period_not_space (c : char) : is_period c = true -> is_space c = false.
Proof.
  unfold is_period. intros H. apply N.eqb_eq in H. subst c. reflexivity.
Qed.

Lemma class_space (c : char) : class_has false [EscS] c = is_space c.
Proof. unfold class_has. cbn. apply orb_false_r. Qed.

Lemma class_period (c : char) :
  class_has false [Lit (ch ".")] c = is_period c.
Proof. unfold class_has. cbn. apply orb_false_r. Qed.

(** ** The quantifier on one-character atoms *)

Lemma repeat_single (m : State -> Cont -> option State) p g :
  (forall x d, m x d = single p g x d) ->
  forall fuel min x c,
    min + length (after x) < fuel ->
    repeat_matcher m fuel min x c =
    greedy p g min (before x) (after x) (captures x) c.
Proof.
  intros Hm. induction fuel as [| fuel IH]; intros min x c Hf; [lia |].
  destruct x as [bef aft caps]. cbn [before after captures] in *.
  cbn [repeat_matcher]. rewrite Hm. unfold single. cbn [before after captures].
  destruct aft as [| a rest].
  - destruct min; reflexivity.
  - cbn [greedy]. destruct (p a) eqn:Hp.
    + cbn [length] in Hf. destruct min as [| k].
      * cbn [Nat.eqb andb pred].
        replace (length (a :: rest) <=? length rest)%nat with false
          by (symmetry; apply Nat.leb_gt; cbn; lia).
        rewrite IH by (cbn; lia). reflexivity.
      * cbn [Nat.eqb andb pred]. rewrite IH by (cbn; lia).
        cbn [before after captures].
        destruct (greedy p g k (a :: bef) rest (g caps a) c); reflexivity.
    + destruct min; reflexivity.
Qed.

Lemma greedy_some p g : forall aft min bef caps,
  greedy p g min bef aft caps Some =
  if (min <=? length (take_while p aft))%nat
  then Some (mkState (rev (take_while p aft) ++ bef) (drop_while p aft)
               (fold_left g (take_while p aft) caps))
  else None.
Proof.
  induction aft as [| a rest IH]; intros min bef caps.
  - destruct min; reflexivity.
  - cbn [greedy take_while drop_while]. destruct (p a).
    + rewrite IH. cbn [length rev fold_left]. rewrite <- app_assoc.
      cbn [app]. destruct min as [| k]; [reflexivity |].
      cbn [pred Nat.leb Nat.eqb].
      destruct (k <=? length (take_while p rest))%nat; reflexivity.
    + destruct min; reflexivity.
Qed.

(** Every quantifier of the source's patterns has a class as its atom
    ([\s+], [\s*], [[a-zA-Z]+], [[a-z]{2,}], [[\s\S]*], ...): its matcher is
    [greedy], in which no counter occurs. *)
Lemma matcher_repeat_class ic items min x c :
  matcher ic (Repeat min (Class items)) x c =
  greedy (class_has ic items) (fun caps _ => caps) min
    (before x) (after x) (captures x) c.
Proof.
  cbn [matcher].
  apply (repeat_single (matcher ic (Class items)) (class_has ic items)
           (fun caps _ => caps)); [reflexivity | lia].
Qed.

(** [replace_loop] does not depend on its counter once it exceeds the
    length of the input left. *)
Lemma replace_loop_fuel ic r repl : forall f1 f2 bef aft,
  length aft < f1 -> length aft < f2 ->
  replace_loop f1 ic r repl bef aft = replace_loop f2 ic r repl bef aft.
Proof.
  induction f1 as [| f1 IH]; intros f2 bef aft H1 H2; [lia |].
  destruct f2 as [| f2]; [lia |].
  cbn [replace_loop].
  assert (Hskip :
    match aft with
    | [] => []
    | a :: aft' => a :: replace_loop f1 ic r repl (a :: bef) aft'
    end =
    match aft with
    | [] => []
    | a :: aft' => a :: replace_loop f2 ic r repl (a :: bef) aft'
    end).
  { destruct aft as [| a aft']; [reflexivity |].
    cbn [length] in *. f_equal. apply IH; lia. }
  destruct (match_at ic r bef aft) as [m |]; [| exact Hskip].
  destruct (length (m_rest m) <? length aft)%nat eqn:Hlt.
  - apply Nat.ltb_lt in Hlt. f_equal. apply IH; lia.
  - f_equal. exact Hskip.
Qed.

Lemma drop_while_length p : forall s, length (drop_while p s) <= length s.
Proof.
  induction s as [| c s IH]; cbn; [lia |].
  destruct (p c); cbn; lia.
Qed.

Lemma matcher_space x d :
  matcher false esc_s x d = single is_space (fun caps _ => caps) x d.
Proof.
  unfold esc_s, single. cbn [matcher]. unfold char_step.
  destruct (after x) as [| a rest]; [reflexivity |].
  rewrite class_space. reflexivity.
Qed.

Lemma consumed_one bef a rest caps y_bef y_caps :
  consumed (mkState bef (a :: rest) caps) (mkState y_bef rest y_caps) = [a].
Proof.
  unfold consumed. cbn [after].
  replace (length (a :: rest) - length rest) with 1
    by (cbn [length]; lia).
  reflexivity.
Qed.

Lemma matcher_period_group x d :
  matcher false (Group 1 (Class [Lit (ch ".")])) x d =
  single is_period (fun caps a => (1, [a]) :: caps) x d.
Proof.
  unfold single. cbn [matcher]. unfold char_step.
  destruct x as [bef aft caps]. cbn [before after captures].
  destruct aft as [| a rest]; [reflexivity |].
  rewrite class_period. destruct (is_period a); [| reflexivity].
  rewrite consumed_one. reflexivity.
Qed.

(** *** Patterns of the shape [atom{2,}] *)

Section Squeeze.

Variable body : regex.
Variable p : char -> bool.
Variable g : list (nat * jsstring) -> char -> list (nat * jsstring).
Variable w : char.
Hypothesis body_single : forall x d, matcher false body x d = single p g x d.

Lemma match_at_repeat2 bef aft :
  match_at false (Repeat 2 body) bef aft =
  if (2 <=? length (take_while p aft))%nat
  then Some (mkMatch bef
               (consumed (mkState bef aft [])
                  (mkState (rev (take_while p aft) ++ bef) (drop_while p aft)
                     (fold_left g (take_while p aft) [])))
               (drop_while p aft) (fold_left g (take_while p aft) []))
  else None.
Proof.
  unfold match_at. cbn [matcher].
  rewrite (repeat_single _ _ _ body_single) by (cbn; lia).
  cbn [before after captures]. rewrite greedy_some.
  destruct (2 <=? length (take_while p aft))%nat; reflexivity.
Qed.

Lemma squeeze_cons b c s :
  squeeze p w b (c :: s) =
  if p c then
    if hd_sat p s then squeeze p w true s
    else (if b then w else c) :: squeeze p w false s
  else c :: squeeze p w false s.
Proof. reflexivity. Qed.

Lemma squeeze_true_run : forall s c,
  p c = true -> squeeze p w true (c :: s) = w :: squeeze p w false (drop_while p s).
Proof.
  induction s as [| a t IH]; intros c Hc; rewrite squeeze_cons, Hc.
  - reflexivity.
  - cbn [hd_sat drop_while]. destruct (p a) eqn:Ha.
    + apply IH, Ha.
    + reflexivity.
Qed.

Lemma replace_loop_squeeze : forall fuel bef aft,
  length aft < fuel ->
  replace_loop fuel false (Repeat 2 body) [RText [w]] bef aft =
  squeeze p w false aft.
Proof.
  induction fuel as [| fuel IH]; intros bef aft Hf; [lia |].
  cbn [replace_loop]. rewrite match_at_repeat2.
  destruct aft as [| c s']; [reflexivity |].
  cbn [length] in Hf. rewrite squeeze_cons. cbn [take_while].
  destruct (p c) eqn:Hc.
  - destruct s' as [| a t].
    + cbn [take_while length Nat.leb hd_sat]. rewrite IH by (cbn; lia).
      reflexivity.
    + cbn [take_while hd_sat]. destruct (p a) eqn:Ha.
      * cbn [length Nat.leb m_rest m_text drop_while]. rewrite Hc, Ha.
        pose proof (drop_while_length p t) as Hl.
        replace (length (drop_while p t) <? S (S (length t)))%nat with true
          by (symmetry; apply Nat.ltb_lt; lia).
        rewrite IH by (cbn [length] in Hf; lia).
        rewrite (squeeze_true_run t a Ha). reflexivity.
      * cbn [length Nat.leb]. rewrite IH by (cbn [length] in *; lia).
        reflexivity.
  - cbn [length Nat.leb]. rewrite IH by lia. reflexivity.
Qed.

Lemma replace_all_squeeze s :
  replace_all false (Repeat 2 body) [RText [w]] s = squeeze p w false s.
Proof. unfold replace_all. apply replace_loop_squeeze. lia. Qed.

End Squeeze.

Lemma replace_periods s :
  replace_all false re_periods [RText (str ".")] s =
  squeeze is_period period false s.
Proof. exact (replace_all_squeeze _ _ _ period matcher_period_group s). Qed.

Lemma replace_spaces s :
  replace_all false re_spaces [RText (str " ")] s =
  squeeze is_space space false s.
Proof. exact (replace_all_squeeze _ _ _ space matcher_space s). Qed.

(** *** The pattern [\s+([.,;:!?])] *)

Lemma punct_cont_cons bef a rest caps :
  punct_cont (mkState bef (a :: rest) caps) =
  if is_punct a then Some (mkState (a :: bef) rest ((1, [a]) :: caps))
  else None.
Proof.
  unfold punct_cont. cbn [matcher]. unfold char_step.
  cbn [before after captures]. fold (is_punct a).
  destruct (is_punct a); [| reflexivity].
  rewrite consumed_one. reflexivity.
Qed.

Lemma greedy_space_punct : forall aft bef caps,
  greedy is_space (fun caps _ => caps) 0 bef aft caps punct_cont =
  state_after_punct bef aft caps.
Proof.
  induction aft as [| a rest IH]; intros bef caps; [reflexivity |].
  cbn [greedy state_after_punct Nat.eqb pred]. rewrite punct_cont_cons.
  destruct (is_space a) eqn:Hs.
  - rewrite (space_not_punct a Hs), IH.
    destruct (state_after_punct (a :: bef) rest caps); reflexivity.
  - destruct (is_punct a); reflexivity.
Qed.

Lemma match_at_space_punct bef aft :
  match_at false re_space_punct bef aft =
  match aft with
  | c :: s' =>
      if is_space c then
        match state_after_punct (c :: bef) s' [] with
        | Some y =>
            Some (mkMatch bef (consumed (mkState bef aft []) y) (after y)
                    (captures y))
        | None => None
        end
      else None
  | [] => None
  end.
Proof.
  unfold match_at, re_space_punct, plus. cbn [matcher].
  fold punct_cont.
  rewrite (repeat_single _ _ _ matcher_space) by (cbn; lia).
  cbn [before after captures]. destruct aft as [| c s']; [reflexivity |].
  cbn [greedy Nat.eqb pred]. destruct (is_space c); [| reflexivity].
  rewrite greedy_space_punct.
  destruct (state_after_punct (c :: bef) s' []); reflexivity.
Qed.

Lemma state_after_punct_spec : forall aft bef caps,
  match punct_after aft with
  | Some (q, rest) =>
      exists bef', state_after_punct bef aft caps =
                   Some (mkState bef' rest ((1, [q]) :: caps))
  | None => state_after_punct bef aft caps = None
  end.
Proof.
  induction aft as [| a rest IH]; intros bef caps; [reflexivity |].
  cbn [punct_after state_after_punct]. destruct (is_punct a).
  - eexists. reflexivity.
  - destruct (is_space a); [apply IH | reflexivity].
Qed.

Lemma punct_after_length : forall s q rest,
  punct_after s = Some (q, rest) -> length rest < length s.
Proof.
  induction s as [| c s IH]; intros q rest H; [discriminate |].
  cbn [punct_after] in H. cbn [length]. destruct (is_punct c).
  - injection H as _ <-. lia.
  - destruct (is_space c); [| discriminate].
    specialize (IH _ _ H). lia.
Qed.

Lemma strip_run : forall s q rest,
  punct_after s = Some (q, rest) ->
  strip_space_punct s = q :: strip_space_punct rest.
Proof.
  induction s as [| c s IH]; intros q rest H; [discriminate |].
  cbn [punct_after] in H. cbn [strip_space_punct].
  destruct (is_punct c) eqn:Hp.
  - injection H as <- <-.
    destruct (is_space c) eqn:Hs.
    + rewrite (space_not_punct c Hs) in Hp. discriminate.
    + reflexivity.
  - destruct (is_space c); [| discriminate].
    rewrite H. cbn [is_some andb]. apply IH, H.
Qed.

Lemma replace_loop_strip : forall fuel bef aft,
  length aft < fuel ->
  replace_loop fuel false re_space_punct [RGroup 1] bef aft =
  strip_space_punct aft.
Proof.
  induction fuel as [| fuel IH]; intros bef aft Hf; [lia |].
  cbn [replace_loop]. rewrite match_at_space_punct.
  destruct aft as [| c s']; [reflexivity |].
  cbn [length] in Hf. cbn [strip_space_punct].
  destruct (is_space c); cbn [andb].
  - pose proof (state_after_punct_spec s' (c :: bef) []) as Hsp.
    destruct (punct_after s') as [[q rest] |] eqn:Hpa.
    + destruct Hsp as [bef' ->]. cbn [after captures m_rest m_text is_some].
      pose proof (punct_after_length _ _ _ Hpa) as Hl.
      replace (length rest <? length (c :: s'))%nat with true
        by (symmetry; apply Nat.ltb_lt; cbn [length]; lia).
      rewrite IH by lia. rewrite (strip_run _ _ _ Hpa). reflexivity.
    + rewrite Hsp. cbn [is_some]. rewrite IH by lia. reflexivity.
  - rewrite IH by lia. reflexivity.
Qed.

Lemma replace_space_punct s :
  replace_all false re_space_punct [RGroup 1] s = strip_space_punct s.
Proof. unfold replace_all. apply replace_loop_strip. lia. Qed.

(** [tidy] without the matcher. *)
Lemma tidy_direct s :
  tidy s =
  trim (squeeze is_space space false
          (squeeze is_period period false (strip_space_punct s))).
Proof.
  unfold tidy. rewrite replace_space_punct, replace_periods, replace_spaces.
  reflexivity.
Qed.

(** ** Adjacent characters *)

Lemma hd_sat_app p a b :
  hd_sat p (a ++ b) = match a with [] => hd_sat p b | _ => hd_sat p a end.
Proof. destruct a; reflexivity. Qed.

Lemma adj_app p q : forall a b,
  adj p q (a ++ b) =
  adj p q a || (hd_sat p (rev a) && hd_sat q b) || adj p q b.
Proof.
  induction a as [| c a IH]; intros b.
  - reflexivity.
  - cbn [app adj rev]. rewrite IH, !hd_sat_app.
    destruct a as [| c' a'].
    + cbn. destruct (p c), (hd_sat q b), (adj p q b); reflexivity.
    + cbn [hd_sat rev app].
      assert (Hne : rev a' ++ [c'] <> []) by (destruct (rev a'); discriminate).
      destruct (rev a' ++ [c']) as [| z zs] eqn:Hr; [contradiction |].
      cbn [app hd_sat].
      destruct (p c), (q c'), (adj p q (c' :: a')), (p z), (hd_sat q b),
        (adj p q b); reflexivity.
Qed.

Lemma adj_rev p q : forall s, adj p q (rev s) = adj q p s.
Proof.
  induction s as [| c s IH]; [reflexivity |].
  cbn [rev]. rewrite adj_app, IH, rev_involutive.
  cbn [adj hd_sat].
  destruct (adj q p s), (hd_sat p s), (q c), (p c); reflexivity.
Qed.

Lemma adj_app_false p q a b :
  adj p q (a ++ b) = false -> adj p q a = false /\ adj p q b = false.
Proof.
  rewrite adj_app. intros H.
  destruct (adj p q a), (adj p q b); try discriminate; auto.
  destruct (hd_sat p (rev a) && hd_sat q b); discriminate.
Qed.

(** ** [trim] *)

Lemma drop_spaces_split : forall s,
  exists pre, s = pre ++ drop_spaces s.
Proof.
  induction s as [| c s [pre IH]].
  - exists []. reflexivity.
  - cbn [drop_spaces]. destruct (is_space c).
    + exists (c :: pre). cbn. f_equal. exact IH.
    + exists []. reflexivity.
Qed.

Lemma drop_spaces_hd : forall s, hd_sat is_space (drop_spaces s) = false.
Proof.
  induction s as [| c s IH]; [reflexivity |].
  cbn [drop_spaces]. destruct (is_space c) eqn:Hc; [exact IH |].
  cbn. exact Hc.
Qed.

Lemma drop_spaces_fix s : hd_sat is_space s = false -> drop_spaces s = s.
Proof.
  destruct s as [| c s]; [reflexivity |].
  cbn. intros ->. reflexivity.
Qed.

Lemma drop_spaces_adj p q s :
  adj p q s = false -> adj p q (drop_spaces s) = false.
Proof.
  destruct (drop_spaces_split s) as [pre H]. intros Hs.
  rewrite H in Hs. apply adj_app_false in Hs. apply Hs.
Qed.

Lemma hd_sat_rev_suffix p pre s :
  s <> [] -> hd_sat p (rev (pre ++ s)) = hd_sat p (rev s).
Proof.
  intros Hs. rewrite rev_app_distr, hd_sat_app.
  destruct (rev s) eqn:Hr; [| reflexivity].
  apply (f_equal (@rev char)) in Hr. rewrite rev_involutive in Hr.
  contradiction.
Qed.

Lemma trim_fix s :
  hd_sat is_space s = false -> hd_sat is_space (rev s) = false -> trim s = s.
Proof.
  intros H1 H2. unfold trim.
  rewrite (drop_spaces_fix s H1), (drop_spaces_fix (rev s) H2).
  apply rev_involutive.
Qed.

Lemma trim_adj p q s : adj p q s = false -> adj p q (trim s) = false.
Proof.
  intros H. unfold trim. rewrite adj_rev.
  apply drop_spaces_adj. rewrite adj_rev.
  apply drop_spaces_adj, H.
Qed.

Lemma trim_last s : hd_sat is_space (rev (trim s)) = false.
Proof. unfold trim. rewrite rev_involutive. apply drop_spaces_hd. Qed.

Lemma trim_hd s : hd_sat is_space (trim s) = false.
Proof.
  unfold trim. set (u := drop_spaces s).
  assert (Hu : hd_sat is_space u = false) by apply drop_spaces_hd.
  destruct (drop_spaces_split (rev u)) as [pre Hpre].
  destruct (drop_spaces (rev u)) as [| z zs] eqn:Hd; [reflexivity |].
  rewrite <- (hd_sat_rev_suffix is_space pre (z :: zs)) by discriminate.
  rewrite <- Hpre, rev_involutive. exact Hu.
Qed.

Lemma trim_idem s : trim (trim s) = trim s.
Proof. apply trim_fix; [apply trim_hd | apply trim_last]. Qed.

(** ** The first replacement *)

Lemma strip_cons c s :
  strip_space_punct (c :: s) =
  if is_space c && is_some (punct_after s)
  then strip_space_punct s
  else c :: strip_space_punct s.
Proof. reflexivity. Qed.

Lemma punct_after_hd s :
  hd_sat is_punct s = true -> is_some (punct_after s) = true.
Proof.
  destruct s as [| c s]; [discriminate |].
  cbn. intros ->. reflexivity.
Qed.

Lemma punct_after_space c s :
  is_space c = true -> punct_after (c :: s) = punct_after s.
Proof.
  intros H. cbn [punct_after]. rewrite (space_not_punct c H), H. reflexivity.
Qed.

Lemma strip_hd_punct : forall s,
  hd_sat is_punct (strip_space_punct s) = true ->
  is_some (punct_after s) = true.
Proof.
  induction s as [| c s IH]; [discriminate |].
  rewrite strip_cons. destruct (is_space c) eqn:Hs; cbn [andb].
  - destruct (is_some (punct_after s)) eqn:Hp.
    + intros _. rewrite (punct_after_space c s Hs). exact Hp.
    + cbn [hd_sat]. rewrite (space_not_punct c Hs). discriminate.
  - cbn [hd_sat punct_after]. intros ->. reflexivity.
Qed.

Lemma strip_clean : forall s,
  space_before_punct (strip_space_punct s) = false.
Proof.
  unfold space_before_punct.
  induction s as [| c s IH]; [reflexivity |].
  rewrite strip_cons.
  destruct (is_space c && is_some (punct_after s)) eqn:H; [exact IH |].
  cbn [adj]. rewrite IH, orb_false_r.
  destruct (is_space c) eqn:Hs; [| reflexivity]. cbn [andb] in *.
  destruct (hd_sat is_punct (strip_space_punct s)) eqn:Hh; [| reflexivity].
  rewrite (strip_hd_punct s Hh) in H. discriminate.
Qed.

Lemma punct_after_adj : forall s c,
  is_space c = true -> is_some (punct_after s) = true ->
  adj is_space is_punct (c :: s) = true.
Proof.
  induction s as [| a s IH]; intros c Hc H; [discriminate |].
  cbn [punct_after] in H.
  change (is_space c && is_punct a || adj is_space is_punct (a :: s) = true).
  rewrite Hc. cbn [andb].
  destruct (is_punct a); [reflexivity |].
  destruct (is_space a) eqn:Ha; [| discriminate].
  cbn [orb]. apply IH; assumption.
Qed.

Lemma strip_fix : forall s,
  space_before_punct s = false -> strip_space_punct s = s.
Proof.
  unfold space_before_punct.
  induction s as [| c s IH]; intros H; [reflexivity |].
  rewrite strip_cons.
  destruct (is_space c) eqn:Hs; cbn [andb].
  - destruct (is_some (punct_after s)) eqn:Hp.
    + rewrite (punct_after_adj s c Hs Hp) in H. discriminate.
    + f_equal. apply IH. cbn [adj] in H.
      apply orb_false_iff in H. apply H.
  - f_equal. apply IH. cbn [adj] in H. apply orb_false_iff in H. apply H.
Qed.

(** ** The second and third replacements *)

Section SqueezeProps.

Variable p : char -> bool.
Variable w : char.
Hypothesis p_w : p w = true.

Lemma blind_self : blind p w p.
Proof. intros c Hc. rewrite Hc, p_w. reflexivity. Qed.

Lemma squeeze_hd P (HP : blind p w P) : forall s b,
  hd_sat P (squeeze p w b s) = hd_sat P s.
Proof.
  induction s as [| c s IH]; intros b; [reflexivity |].
  rewrite squeeze_cons. destruct (p c) eqn:Hc; [| reflexivity].
  destruct (hd_sat p s) eqn:Hh.
  - rewrite IH. destruct s as [| a t]; [discriminate |].
    cbn [hd_sat] in *. rewrite (HP a Hh), (HP c Hc). reflexivity.
  - destruct b; cbn [hd_sat]; [symmetry; apply HP, Hc | reflexivity].
Qed.

Lemma squeeze_adj P Q (HP : blind p w P) (HQ : blind p w Q) :
  forall s b,
  adj P Q s = false -> adj P Q (squeeze p w b s) = false.
Proof.
  induction s as [| c s IH]; intros b H; [reflexivity |].
  cbn [adj] in H. apply orb_false_iff in H. destruct H as [H1 H2].
  rewrite squeeze_cons. destruct (p c) eqn:Hc.
  - destruct (hd_sat p s) eqn:Hh; [apply IH, H2 |].
    cbn [adj]. rewrite (IH false H2), orb_false_r, (squeeze_hd Q HQ).
    destruct b; [rewrite <- (HP c Hc) |]; exact H1.
  - cbn [adj]. rewrite (IH false H2), orb_false_r, (squeeze_hd Q HQ).
    exact H1.
Qed.

Lemma squeeze_clean : forall s b, adj p p (squeeze p w b s) = false.
Proof.
  induction s as [| c s IH]; intros b; [reflexivity |].
  rewrite squeeze_cons. destruct (p c) eqn:Hc.
  - destruct (hd_sat p s) eqn:Hh; [apply IH |].
    cbn [adj]. rewrite IH, orb_false_r, (squeeze_hd p blind_self), Hh.
    apply andb_false_r.
  - cbn [adj]. rewrite IH, Hc. reflexivity.
Qed.

Lemma squeeze_fix : forall s,
  adj p p s = false -> squeeze p w false s = s.
Proof.
  induction s as [| c s IH]; intros H; [reflexivity |].
  cbn [adj] in H. apply orb_false_iff in H. destruct H as [H1 H2].
  rewrite squeeze_cons, (IH H2).
  destruct (p c); [| reflexivity].
  cbn [andb] in H1. rewrite H1. reflexivity.
Qed.

End SqueezeProps.

Lemma blind_period P : blind is_period period P.
Proof.
  intros c Hc. unfold is_period in Hc. apply N.eqb_eq in Hc.
  subst c. reflexivity.
Qed.

Lemma blind_space_space : blind is_space space is_space.
Proof. apply blind_self. reflexivity. Qed.

Lemma blind_space_punct : blind is_space space is_punct.
Proof. intros c Hc. rewrite (space_not_punct c Hc). reflexivity. Qed.

Lemma blind_space_period : blind is_space space is_period.
Proof.
  intros c Hc. destruct (is_period c) eqn:Hp; [| reflexivity].
  rewrite (period_not_space c Hp) in Hc. discriminate.
Qed.

(** ** [tidy] normalizes, and leaves normalized text alone *)

Lemma tidy_normalized s : normalized (tidy s).
Proof.
  rewrite tidy_direct. unfold normalized, space_before_punct, double_period,
    double_space.
  repeat split.
  - apply trim_adj.
    apply (squeeze_adj _ _ _ _ blind_space_space blind_space_punct).
    apply (squeeze_adj _ _ _ _ (blind_period _) (blind_period _)).
    apply strip_clean.
  - apply trim_adj.
    apply (squeeze_adj _ _ _ _ blind_space_period blind_space_period).
    apply squeeze_clean. reflexivity.
  - apply trim_adj. apply squeeze_clean. reflexivity.
  - apply trim_hd.
  - apply trim_last.
Qed.

Lemma tidy_fix s : normalized s -> tidy s = s.
Proof.
  intros (H1 & H2 & H3 & H4 & H5). rewrite tidy_direct.
  rewrite (strip_fix s H1), (squeeze_fix _ _ s H2), (squeeze_fix _ _ s H3).
  apply trim_fix; assumption.
Qed.

(** C3. The text cleaner is idempotent: [tidy (tidy t) = tidy t] for every
    string [t]. *)
Theorem tidy_idempotent (t : jsstring) : tidy (tidy t) = tidy t.
Proof. apply tidy_fix, tidy_normalized. Qed.

(** C10. The presentation layer's cleaner, applied to text that [tidy] has
    produced, changes nothing; the two cleaners compute the same function. *)
Theorem cleanFollowUp_after_tidy (s : jsstring) :
  cleanFollowUp (tidy s) = tidy s /\ cleanFollowUp s = tidy s.
Proof.
  assert (E : forall x, cleanFollowUp x = tidy x) by reflexivity.
  split; [rewrite E; apply tidy_fix, tidy_normalized | apply E].
Qed.

(** ** The loop of [mockExtract] *)

Lemma guarded_index m n :
  (if is_match m then index m n else Normal None) = Normal (opt_group n m).
Proof. destruct m; reflexivity. Qed.

Lemma extract_line_eq acc line :
  extract_line acc line =
  Normal (if action_line line then acc ++ [task_of line] else acc).
Proof.
  unfold extract_line. destruct (action_line line); [| reflexivity].
  cbv zeta. rewrite !guarded_index. reflexivity.
Qed.

Lemma for_of_extract_line : forall lines acc,
  for_of lines extract_line acc =
  Normal (acc ++ List.map task_of (filter action_line lines)).
Proof.
  induction lines as [| l lines IH]; intros acc.
  - cbn. rewrite app_nil_r. reflexivity.
  - cbn [for_of filter]. rewrite extract_line_eq. cbn [bind].
    rewrite IH. destruct (action_line l); [| reflexivity].
    cbn [List.map]. rewrite <- app_assoc. reflexivity.
Qed.

Lemma mockExtract_eq text :
  mockExtract text =
  Normal (mkResponseBody (tasks_of text)
            (tidy (follow_head ++ joined_titles (tasks_of text)
                   ++ follow_tail))).
Proof.
  unfold mockExtract. rewrite for_of_extract_line. cbn [bind app].
  unfold tasks_of, found_tasks, joined_titles.
  destruct (List.map task_of (filter action_line (lines_of text)));
    reflexivity.
Qed.

(** C8. The heuristic extractor is total: for every string it returns a
    result and never throws. *)
Theorem mockExtract_total (text : jsstring) :
  exists r, mockExtract text = Normal r.
Proof. rewrite mockExtract_eq. eexists. reflexivity. Qed.

(** ** Non-emptiness of [tasks] *)





(** ** Titles *)

(** C2.  A line that is only a bullet marker is an action line whose text,
    once the marker is stripped, is empty: the task's title is the empty
    string. *)
Theorem mockExtract_bare_bullet :
  mockExtract (str "-") =
  Normal (mkResponseBody [mkTask [] None None None]
            (str "Thanks everyone for the meeting. Next actions:. Please confirm owners and timelines.")).
Proof. vm_compute. reflexivity. Qed.

(** C6.  A single line of 300 characters [a] behind a bullet marker ([-] or
    [*], with or without a space) yields exactly one task, whose title has
    length 250 and ends in the ellipsis marker [...]: the first 247
    characters and the marker. *)
Theorem long_title_truncated (star spaced : bool) :
  exists r t,
    mockExtract (bullet_marker star spaced ++ repeat (ch "a") 300) = Normal r /\
    tasks r = [t] /\
    length (title t) = 250 /\
    ends_with (title t) (str "...") = true /\
    title t = repeat (ch "a") 247 ++ str "...".
Proof.
  rewrite mockExtract_eq. eexists. eexists. split; [reflexivity |].
  cbn [tasks]. destruct star, spaced; vm_compute; repeat split; reflexivity.
Qed.

(** ** The assignee *)

(** C4, counterexample.  On the line of the claim the task's assignee is not
    [Priya]. *)
Lemma priya_line_assignee_not_priya :
  ~ (exists r, mockExtract priya_line = Normal r /\
               List.map assignee (tasks r) = [Some (str "Priya")]).
Proof.
  intros (r & H & Ha). vm_compute in H. injection H as <-.
  vm_compute in Ha. discriminate Ha.
Qed.

(** C4, amended.  On the line of the claim the task's assignee is [Monday]:
    the first pattern matches at its leftmost occurrence, [by Monday], which
    stands before [Assigned to Priya].  The first pattern still wins over the
    second one, whose first capitalized word is [Action]. *)
Theorem priya_line_assignee :
  (exists r, mockExtract priya_line = Normal r /\
             List.map assignee (tasks r) = [Some (str "Monday")]) /\
  opt_group 1 (match_ true re_assigned
                 (replace_all false re_bullet [] priya_line)) =
    Some (str "Monday") /\
  opt_group 1 (match_ false re_capword
                 (replace_all false re_bullet [] priya_line)) =
    Some (str "Action").
Proof.
  split; [eexists; split |]; vm_compute; repeat split; reflexivity.
Qed.

(** C5.  The flag [i] covers the whole first pattern, the class [A-Z] of the
    name included: after [by] a word in lower case is matched and becomes the
    assignee.  On the first line of the sample notes of [index.tsx] the
    assignee is [next], not [Ravi]. *)
Theorem lowercase_assignee :
  opt_group 1 (match_ true re_assigned (str "Please send it by tomorrow")) =
    Some (str "tomorrow") /\
  hd_sat is_upper (str "tomorrow") = false /\
  (exists r, mockExtract (str "Please send it by tomorrow") = Normal r /\
             List.map assignee (tasks r) = [Some (str "tomorrow")]) /\
  (exists r, mockExtract sample_line = Normal r /\
             List.map assignee (tasks r) = [Some (str "next")]).
Proof.
  split; [| split; [| split; eexists; split]]; vm_compute; reflexivity.
Qed.

(** ** The model-backed extractor *)










(** Content that is a JSON value but not an object parses directly: the
    two properties read are [undefined] and the defaults are returned. *)
Remark bare_value_content :
  parse_content (str "123") = Normal (mkResponseBody (JSON.Array []) []) /\
  parse_content (str "null") = Throw (Error_ msg_unparsed).
Proof. split; vm_compute; reflexivity. Qed.






(** ** [tidy] on text that ends in, or begins with, normalized text *)

Lemma hd_sat_app_tail p x s :
  hd_sat p s = false -> hd_sat p (x ++ s) = hd_sat p x.
Proof. intros H. rewrite hd_sat_app. destruct x; [exact H | reflexivity]. Qed.

Lemma hd_sat_rev_cons p c s :
  s <> [] -> hd_sat p (rev (c :: s)) = hd_sat p (rev s).
Proof. intros H. apply (hd_sat_rev_suffix p [c] s H). Qed.

Lemma punct_after_app_tail : forall x s,
  hd_sat is_space s = false -> hd_sat is_punct s = false ->
  is_some (punct_after (x ++ s)) = is_some (punct_after x).
Proof.
  induction x as [| c x IH]; intros s H1 H2.
  - destruct s as [| a s]; [reflexivity |].
    cbn in *. rewrite H1, H2. reflexivity.
  - cbn [app punct_after]. destruct (is_punct c); [reflexivity |].
    destruct (is_space c); [apply IH; assumption | reflexivity].
Qed.

Lemma strip_app_tail : forall x s,
  hd_sat is_space s = false -> hd_sat is_punct s = false ->
  strip_space_punct (x ++ s) = strip_space_punct x ++ strip_space_punct s.
Proof.
  induction x as [| c x IH]; intros s H1 H2; [reflexivity |].
  cbn [app]. rewrite !strip_cons, punct_after_app_tail, IH by assumption.
  destruct (is_space c && is_some (punct_after x)); reflexivity.
Qed.

Lemma squeeze_app_tail p w : forall x s b,
  hd_sat p s = false ->
  squeeze p w b (x ++ s) = squeeze p w b x ++ squeeze p w false s.
Proof.
  induction x as [| c x IH]; intros s b H.
  - destruct s as [| a s]; [reflexivity |].
    cbn [app]. rewrite !squeeze_cons. cbn in H. rewrite H. reflexivity.
  - cbn [app]. rewrite !squeeze_cons, hd_sat_app_tail, !IH by assumption.
    destruct (p c), (hd_sat p x), b; reflexivity.
Qed.

Lemma drop_spaces_app : forall x s,
  hd_sat is_space s = false -> drop_spaces (x ++ s) = drop_spaces x ++ s.
Proof.
  induction x as [| c x IH]; intros s H.
  - apply drop_spaces_fix, H.
  - cbn [app drop_spaces]. destruct (is_space c); [apply IH, H | reflexivity].
Qed.

Lemma trim_app_tail x s :
  s <> [] -> hd_sat is_space s = false -> hd_sat is_space (rev s) = false ->
  trim (x ++ s) = drop_spaces x ++ s.
Proof.
  intros Hne H1 H2. unfold trim.
  rewrite (drop_spaces_app x s H1), drop_spaces_fix; [apply rev_involutive |].
  rewrite hd_sat_rev_suffix by exact Hne. exact H2.
Qed.

Lemma starts_with_app : forall a b, starts_with (a ++ b) a = true.
Proof.
  induction a as [| c a IH]; intros b; [reflexivity |].
  cbn. rewrite N.eqb_refl. apply IH.
Qed.

Lemma ends_with_app a b : ends_with (a ++ b) b = true.
Proof. unfold ends_with. rewrite rev_app_distr. apply starts_with_app. Qed.

Lemma includes_app : forall a b c, includes (a ++ b ++ c) b = true.
Proof.
  induction a as [| x a IH]; intros b c.
  - cbn [app]. destruct (b ++ c) eqn:E; cbn [includes]; rewrite <- E;
      rewrite starts_with_app; reflexivity.
  - cbn [app includes]. rewrite IH. apply orb_true_r.
Qed.

Lemma punct_after_clean : forall a c b,
  is_space c = true ->
  adj is_space is_punct (c :: a) = false ->
  hd_sat is_space (rev (c :: a)) = false ->
  punct_after (a ++ b) = None.
Proof.
  induction a as [| x a IH]; intros c b Hc Hadj Hlast.
  - cbn in Hlast. rewrite Hc in Hlast. discriminate.
  - change (is_space c && is_punct x || adj is_space is_punct (x :: a) = false)
      in Hadj.
    rewrite Hc in Hadj. cbn [andb] in Hadj.
    apply orb_false_iff in Hadj. destruct Hadj as [Hx Hadj].
    cbn [app punct_after]. rewrite Hx.
    destruct (is_space x) eqn:Hs; [| reflexivity].
    apply (IH x b Hs Hadj).
    rewrite hd_sat_rev_cons in Hlast by discriminate. exact Hlast.
Qed.

Lemma strip_app_clean : forall a b,
  space_before_punct a = false -> hd_sat is_space (rev a) = false ->
  strip_space_punct (a ++ b) = a ++ strip_space_punct b.
Proof.
  unfold space_before_punct.
  induction a as [| c a IH]; intros b Hadj Hlast; [reflexivity |].
  cbn [app]. rewrite strip_cons.
  assert (Ha : adj is_space is_punct a = false).
  { cbn [adj] in Hadj. apply orb_false_iff in Hadj. apply Hadj. }
  assert (Hl : hd_sat is_space (rev a) = false).
  { destruct a as [| x a']; [reflexivity |].
    rewrite hd_sat_rev_cons in Hlast by discriminate. exact Hlast. }
  rewrite (IH b Ha Hl).
  destruct (is_space c) eqn:Hc; [| reflexivity].
  rewrite (punct_after_clean a c b Hc Hadj Hlast). reflexivity.
Qed.

Lemma squeeze_app_clean p w : forall a b,
  adj p p a = false -> hd_sat p (rev a) = false ->
  squeeze p w false (a ++ b) = a ++ squeeze p w false b.
Proof.
  induction a as [| c a IH]; intros b Hadj Hlast; [reflexivity |].
  cbn [app]. rewrite squeeze_cons.
  cbn [adj] in Hadj. apply orb_false_iff in Hadj. destruct Hadj as [Hc Ha].
  assert (Hl : hd_sat p (rev a) = false).
  { destruct a as [| x a']; [reflexivity |].
    rewrite hd_sat_rev_cons in Hlast by discriminate. exact Hlast. }
  rewrite (IH b Ha Hl).
  destruct (p c) eqn:Hpc; [| reflexivity].
  destruct a as [| x a'].
  - cbn in Hlast. rewrite Hpc in Hlast. discriminate.
  - cbn [app hd_sat] in *. cbn [andb] in Hc. rewrite Hc. reflexivity.
Qed.

(** ** The follow-up message *)

Lemma hd_sat_rev_app p a b :
  hd_sat p (rev (a ++ b)) =
  match b with [] => hd_sat p (rev a) | _ => hd_sat p (rev b) end.
Proof.
  destruct b as [| x b].
  - rewrite app_nil_r. reflexivity.
  - apply hd_sat_rev_suffix. discriminate.
Qed.

Lemma tidy_keeps_request x :
  tidy (x ++ request) =
  drop_spaces
    (squeeze is_space space false
       (squeeze is_period period false (strip_space_punct x))) ++ request.
Proof.
  rewrite tidy_direct.
  rewrite strip_app_tail by reflexivity.
  rewrite (squeeze_app_tail is_period period) by reflexivity.
  rewrite (squeeze_app_tail is_space space) by reflexivity.
  rewrite trim_app_tail; [reflexivity | discriminate | reflexivity ..].
Qed.

Lemma rest_clean a b :
  a <> [] ->
  double_period a = false -> double_space a = false ->
  hd_sat is_space a = false ->
  hd_sat is_space (rev a) = false -> hd_sat is_period (rev a) = false ->
  squeeze is_space space false (squeeze is_period period false b) <> [] ->
  hd_sat is_space
    (rev (squeeze is_space space false (squeeze is_period period false b)))
    = false ->
  trim (squeeze is_space space false
          (squeeze is_period period false (a ++ b))) =
  a ++ squeeze is_space space false (squeeze is_period period false b).
Proof.
  intros Hne H2 H3 Hh Hls Hlp Hb Hbl.
  rewrite (squeeze_app_clean is_period period a b H2 Hlp).
  rewrite (squeeze_app_clean is_space space a _ H3 Hls).
  apply trim_fix.
  - rewrite hd_sat_app. destruct a; [contradiction | exact Hh].
  - rewrite hd_sat_rev_app.
    destruct (squeeze is_space space false
                (squeeze is_period period false b));
      [contradiction | exact Hbl].
Qed.

Lemma strip_follow j b :
  j <> [] -> space_before_punct j = false ->
  hd_sat is_space (rev j) = false ->
  strip_space_punct (follow_head ++ j ++ b) =
  head_for j ++ j ++ strip_space_punct b.
Proof.
  intros Hne H1 Hl. unfold head_for. destruct (hd_sat is_punct j) eqn:Hp.
  - change follow_head with (head1 ++ [space]). rewrite <- app_assoc.
    rewrite strip_app_clean by reflexivity. f_equal.
    cbn [app]. rewrite strip_cons.
    assert (Hs : is_some (punct_after (j ++ b)) = true).
    { apply punct_after_hd. rewrite hd_sat_app.
      destruct j; [contradiction | exact Hp]. }
    rewrite Hs. cbn [andb]. change (is_space space) with true. cbn iota.
    apply strip_app_clean; assumption.
  - rewrite app_assoc, strip_app_clean, <- app_assoc; [reflexivity | |].
    + unfold space_before_punct in *. rewrite adj_app, H1, Hp.
      reflexivity.
    + rewrite hd_sat_rev_app. destruct j; [contradiction | exact Hl].
Qed.

Lemma nil_or_not (s : jsstring) : s = [] \/ s <> [].
Proof. destruct s; [left; reflexivity | right; discriminate]. Qed.

Lemma ends_period_split j :
  hd_sat is_period (rev j) = true -> exists j0, j = j0 ++ [period].
Proof.
  intros H. destruct (rev j) as [| z r] eqn:Er; [discriminate |].
  cbn [hd_sat] in H. unfold is_period in H. apply N.eqb_eq in H. subst z.
  exists (rev r). rewrite <- (rev_involutive j), Er. reflexivity.
Qed.

Lemma adj_snoc_false p q a c :
  adj p q (a ++ [c]) = false ->
  adj p q a = false /\ (q c = true -> hd_sat p (rev a) = false).
Proof.
  rewrite adj_app. cbn [adj hd_sat]. rewrite andb_false_r, !orb_false_r.
  intros H. apply orb_false_iff in H. destruct H as [H1 H2].
  split; [exact H1 |]. intros Hq. rewrite Hq, andb_true_r in H2. exact H2.
Qed.

Lemma head_for_facts j :
  head_for j <> [] /\ double_period (head_for j) = false /\
  double_space (head_for j) = false /\
  hd_sat is_space (head_for j) = false /\
  hd_sat is_period (rev (head_for j)) = false /\
  (hd_sat is_space (rev (head_for j)) = true -> hd_sat is_punct j = false).
Proof.
  unfold head_for. destruct (hd_sat is_punct j);
    (split; [discriminate |]); repeat split; discriminate.
Qed.

(** The last three steps of [tidy] on the template, once the titles [x]
    (or the titles without their final period) are known to be clean. *)
Lemma template_clean j x b :
  (x <> [] -> hd_sat is_space x = false /\ hd_sat is_punct x = hd_sat is_punct j) ->
  (x = [] -> hd_sat is_punct j = true) ->
  double_period x = false -> double_space x = false ->
  hd_sat is_space (rev x) = false -> hd_sat is_period (rev x) = false ->
  squeeze is_space space false (squeeze is_period period false b) <> [] ->
  hd_sat is_space
    (rev (squeeze is_space space false (squeeze is_period period false b)))
    = false ->
  trim (squeeze is_space space false
          (squeeze is_period period false ((head_for j ++ x) ++ b))) =
  (head_for j ++ x)
  ++ squeeze is_space space false (squeeze is_period period false b).
Proof.
  intros Hx Hx0 H2 H3 Hls Hlp Hb Hbl.
  destruct (head_for_facts j) as (Hd0 & Hd2 & Hd3 & Hdh & Hdp & Hds).
  unfold double_period, double_space in *.
  assert (Hsp : hd_sat is_space (rev (head_for j)) && hd_sat is_space x
                = false).
  { destruct (nil_or_not x) as [-> | Hne]; [apply andb_false_r |].
    destruct (Hx Hne) as [-> _]. apply andb_false_r. }
  apply rest_clean; try assumption.
  - intros E. apply app_eq_nil in E. destruct E as [E _]. contradiction.
  - unfold double_period. rewrite adj_app, Hd2, Hdp, H2. reflexivity.
  - unfold double_space. rewrite adj_app, Hd3, Hsp, H3. reflexivity.
  - rewrite hd_sat_app. destruct (head_for j); [contradiction | exact Hdh].
  - rewrite hd_sat_rev_app. destruct x as [| y ys]; [| exact Hls].
    destruct (hd_sat is_space (rev (head_for j))) eqn:E; [| reflexivity].
    rewrite (Hx0 eq_refl) in Hds. discriminate (Hds eq_refl).
  - rewrite hd_sat_rev_app. destruct x; [exact Hdp | exact Hlp].
Qed.

(** Normalized text between the head and the tail of the template stays as
    it is. *)
Lemma tidy_template_includes j :
  normalized j ->
  includes (tidy (follow_head ++ j ++ follow_tail)) j = true.
Proof.
  intros (H1 & H2 & H3 & H4 & H5).
  destruct (nil_or_not j) as [-> | Hne].
  { destruct (tidy _); reflexivity. }
  rewrite tidy_direct, (strip_follow j follow_tail Hne H1 H5).
  change (strip_space_punct follow_tail) with follow_tail.
  destruct (hd_sat is_period (rev j)) eqn:Hlast.
  - (* the titles end in a period, which merges with the tail's *)
    destruct (ends_period_split j Hlast) as [x ->].
    unfold double_period, double_space, space_before_punct in *.
    apply adj_snoc_false in H1, H2, H3.
    destruct H1 as [H1 H1l], H2 as [H2 H2l], H3 as [H3 _].
    specialize (H1l eq_refl). specialize (H2l eq_refl).
    replace (head_for (x ++ [period]) ++ (x ++ [period]) ++ follow_tail)
      with ((head_for (x ++ [period]) ++ x) ++ period :: follow_tail)
      by (rewrite <- !app_assoc; reflexivity).
    rewrite template_clean; try assumption; try discriminate;
      try reflexivity.
    + change (squeeze is_space space false
                (squeeze is_period period false (period :: follow_tail)))
        with (period :: tail1).
      replace ((head_for (x ++ [period]) ++ x) ++ period :: tail1)
        with (head_for (x ++ [period]) ++ (x ++ [period]) ++ tail1)
        by (rewrite <- !app_assoc; reflexivity).
      apply includes_app.
    + intros Hx. rewrite !hd_sat_app in *.
      destruct x; [contradiction | split; [exact H4 | reflexivity]].
    + intros ->. reflexivity.
  - rewrite app_assoc, template_clean; try assumption; try discriminate;
      try reflexivity.
    + change (squeeze is_space space false
                (squeeze is_period period false follow_tail))
        with follow_tail.
      rewrite <- app_assoc. apply includes_app.
    + intros _. split; [exact H4 | reflexivity].
    + intros E. contradiction.
Qed.

Lemma adj_includes p q a b : forall s,
  p a = true -> q b = true -> adj p q s = false -> includes s [a; b] = false.
Proof.
  intros s Ha Hb. induction s as [| c s IH]; intros H; [reflexivity |].
  cbn [adj] in H. apply orb_false_iff in H. destruct H as [H1 H2].
  cbn [includes]. rewrite (IH H2), orb_false_r. cbn [starts_with].
  destruct (N.eqb_spec c a) as [-> | _]; [| reflexivity].
  rewrite Ha in H1. cbn [andb] in *.
  destruct s as [| d s']; [reflexivity |].
  destruct (N.eqb_spec d b) as [-> | _]; [| reflexivity].
  cbn [hd_sat] in H1. rewrite Hb in H1. discriminate.
Qed.

Lemma follow_tail_request : follow_tail = str ". " ++ request.
Proof. reflexivity. Qed.

(** C7, counterexample.  The title [Please wait...] ends in three periods;
    [tidy] collapses them, so the follow-up no longer contains the title. *)
Lemma followUp_loses_title :
  mockExtract (str "Please wait...") =
    Normal (mkResponseBody
              [mkTask (str "Please wait...") (Some (str "Please")) None None]
              (str "Thanks everyone for the meeting. Next actions: Please wait. Please confirm owners and timelines.")) /\
  includes
    (str "Thanks everyone for the meeting. Next actions: Please wait. Please confirm owners and timelines.")
    (str "Please wait...") = false.
Proof. split; vm_compute; reflexivity. Qed.

(** C7, amended.  For every input the follow-up is [tidy] applied to the
    template that holds the titles joined by [; ]; it ends with "Please
    confirm owners and timelines." and has no two consecutive periods, no two
    consecutive spaces and no two consecutive white-space characters of any
    kind.  It contains the joined titles as they are whenever [tidy] leaves
    the joined titles unchanged. *)
Theorem followUp_content (text : jsstring) :
  exists r,
    mockExtract text = Normal r /\
    followUp r =
      tidy (follow_head ++ join (str "; ") (List.map title (tasks r))
            ++ follow_tail) /\
    ends_with (followUp r) (str "Please confirm owners and timelines.") = true /\
    includes (followUp r) (str "..") = false /\
    includes (followUp r) (str "  ") = false /\
    double_space (followUp r) = false /\
    (tidy (join (str "; ") (List.map title (tasks r))) =
       join (str "; ") (List.map title (tasks r)) ->
     includes (followUp r) (join (str "; ") (List.map title (tasks r))) = true).
Proof.
  rewrite mockExtract_eq. eexists. split; [reflexivity |].
  cbn [tasks followUp]. fold (joined_titles (tasks_of text)).
  set (j := joined_titles (tasks_of text)).
  split; [reflexivity |]. split; [| split; [| split; [| split]]].
  - rewrite follow_tail_request, !app_assoc, tidy_keeps_request.
    apply ends_with_app.
  - apply (adj_includes is_period is_period); [reflexivity .. |].
    apply tidy_normalized.
  - apply (adj_includes is_space is_space); [reflexivity .. |].
    apply tidy_normalized.
  - apply tidy_normalized.
  - intros E. apply tidy_template_includes. rewrite <- E.
    apply tidy_normalized.
Qed.

Lemma followUp_content_witness :
  exists r,
    mockExtract (str "Please call Bob by Friday") = Normal r /\
    includes (followUp r) (str "Please call Bob by Friday") = true.
Proof.
  destruct (followUp_content (str "Please call Bob by Friday"))
    as (r & H & _ & _ & _ & _ & _ & Hinc).
  exists r. split; [exact H |].
  vm_compute in H. injection H as <-.
  apply Hinc. vm_compute. reflexivity.
Defined.

(** ** The counter of the JSON parser

    A successful parse consumes input, so the counter that [JSON.parse]
    starts from is never used up: more of it changes nothing. *)

Lemma skip_ws_length : forall s, length (JSON.skip_ws s) <= length s.
Proof.
  induction s as [| c s IH]; cbn; [lia |].
  destruct (JSON.is_ws c); cbn; lia.
Qed.

Lemma starts_with_length : forall pre s,
  starts_with s pre = true -> length pre <= length s.
Proof.
  induction pre as [| p pre IH]; intros s H; cbn; [lia |].
  destruct s as [| c s]; [discriminate |].
  cbn in H. apply andb_true_iff in H. destruct H as [_ H].
  specialize (IH s H). cbn. lia.
Qed.

Lemma string_body_length : forall n s acc k rest,
  length s <= n ->
  JSON.string_body s acc = Some (k, rest) -> length rest < length s.
Proof.
  induction n as [| n IH]; intros s acc k rest Hn H.
  - destruct s; [discriminate | cbn in Hn; lia].
  - destruct s as [| c s]; [discriminate |].
    cbn [JSON.string_body] in H. cbn [length] in *.
    destruct (c =? 34)%N.
    { injection H as _ <-. lia. }
    destruct (c =? 92)%N.
    + destruct s as [| e s1]; [discriminate |]. cbn [length] in *.
      destruct (e =? 117)%N.
      * destruct s1 as [| h1 [| h2 [| h3 [| h4 s2]]]]; try discriminate.
        destruct (JSON.hex4 h1 h2 h3 h4); [| discriminate].
        cbn [length] in *. apply IH in H; lia.
      * destruct (JSON.unescape e); [| discriminate].
        apply IH in H; lia.
    + destruct (c <? 32)%N; [discriminate |].
      apply IH in H; lia.
Qed.

Lemma digits_length : forall s, length (snd (JSON.digits s)) <= length s.
Proof.
  induction s as [| c s IH]; cbn; [lia |].
  destruct (is_digit c); [| cbn; lia].
  destruct (JSON.digits s) as [ds rest]. cbn in *. lia.
Qed.

Lemma sign_part_length s :
  length (snd (JSON.sign_part s)) <= length s.
Proof.
  destruct s as [| c s]; cbn; [lia |].
  destruct (c =? 45)%N; cbn; lia.
Qed.

Lemma int_part_length s ip rest :
  JSON.int_part s = Some (ip, rest) -> length rest < length s.
Proof.
  destruct s as [| c s]; [discriminate |]. cbn [JSON.int_part length].
  destruct (c =? 48)%N.
  - intros H. injection H as _ <-. lia.
  - destruct (is_digit c); [| discriminate].
    pose proof (digits_length s) as Hd.
    destruct (JSON.digits s) as [ds r]. intros H. injection H as _ <-.
    cbn in Hd. lia.
Qed.

Lemma frac_part_length s fp rest :
  JSON.frac_part s = Some (fp, rest) -> length rest <= length s.
Proof.
  destruct s as [| c s]; cbn [JSON.frac_part length].
  - intros H. injection H as _ <-. cbn. lia.
  - destruct (c =? 46)%N.
    + pose proof (digits_length s) as Hd.
      destruct (JSON.digits s) as [[| d ds] r]; [discriminate |].
      intros H. injection H as _ <-. cbn in Hd. lia.
    + intros H. injection H as _ <-. cbn. lia.
Qed.

Lemma exp_part_length s ep rest :
  JSON.exp_part s = Some (ep, rest) -> length rest <= length s.
Proof.
  destruct s as [| e s]; cbn [JSON.exp_part length].
  - intros H. injection H as _ <-. cbn. lia.
  - destruct ((e =? 101)%N || (e =? 69)%N).
    + destruct s as [| g t].
      * cbn. discriminate.
      * destruct ((g =? 43)%N || (g =? 45)%N).
        -- pose proof (digits_length t) as Hd.
           destruct (JSON.digits t) as [[| d ds] r]; [discriminate |].
           intros H. injection H as _ <-. cbn in *. lia.
        -- pose proof (digits_length (g :: t)) as Hd.
           destruct (JSON.digits (g :: t)) as [[| d ds] r]; [discriminate |].
           intros H. injection H as _ <-. cbn in *. lia.
    + intros H. injection H as _ <-. cbn. lia.
Qed.

Lemma number_length s lexeme rest :
  JSON.number s = Some (lexeme, rest) -> length rest < length s.
Proof.
  unfold JSON.number. pose proof (sign_part_length s) as Hs.
  destruct (JSON.sign_part s) as [sg s1]. cbn [snd] in Hs.
  destruct (JSON.int_part s1) as [[ip s2] |] eqn:Hi; [| discriminate].
  apply int_part_length in Hi.
  destruct (JSON.frac_part s2) as [[fp s3] |] eqn:Hf; [| discriminate].
  apply frac_part_length in Hf.
  destruct (JSON.exp_part s3) as [[ep s4] |] eqn:He; [| discriminate].
  apply exp_part_length in He.
  intros H. injection H as _ <-. lia.
Qed.

Lemma parse_value_eq fuel s :
  JSON.parse_value (S fuel) s =
  if starts_with s (str "null") then Some (JSON.Null, skipn 4 s)
  else if starts_with s (str "true") then Some (JSON.Bool true, skipn 4 s)
  else if starts_with s (str "false") then Some (JSON.Bool false, skipn 5 s)
  else
    match s with
    | [] => None
    | c :: rest =>
        if (c =? 34)%N then
          match JSON.string_body rest [] with
          | Some (t, rest') => Some (JSON.String_ t, rest')
          | None => None
          end
        else if (c =? 91)%N then
          match JSON.skip_ws rest with
          | [] => None
          | c' :: rest' =>
              if (c' =? 93)%N then Some (JSON.Array [], rest')
              else
                match JSON.elements fuel (c' :: rest') [] with
                | Some (items, rest'') => Some (JSON.Array items, rest'')
                | None => None
                end
          end
        else if (c =? 123)%N then
          match JSON.skip_ws rest with
          | [] => None
          | c' :: rest' =>
              if (c' =? 125)%N then Some (JSON.Object [], rest')
              else
                match JSON.members fuel (c' :: rest') [] with
                | Some (ms, rest'') => Some (JSON.Object ms, rest'')
                | None => None
                end
          end
        else
          match JSON.number s with
          | Some (lexeme, rest') => Some (JSON.Number lexeme, rest')
          | None => None
          end
    end.
Proof. reflexivity. Qed.

Lemma elements_eq fuel s acc :
  JSON.elements (S fuel) s acc =
  match JSON.parse_value fuel s with
  | Some (v, rest) =>
      match JSON.skip_ws rest with
      | [] => None
      | c :: rest' =>
          if (c =? 44)%N
          then JSON.elements fuel (JSON.skip_ws rest') (v :: acc)
          else if (c =? 93)%N then Some (rev (v :: acc), rest')
          else None
      end
  | None => None
  end.
Proof. reflexivity. Qed.

Lemma members_eq fuel s acc :
  JSON.members (S fuel) s acc =
  match s with
  | [] => None
  | q :: s1 =>
      if (q =? 34)%N then
        match JSON.string_body s1 [] with
        | Some (key, s2) =>
            match JSON.skip_ws s2 with
            | [] => None
            | c :: s3 =>
                if (c =? 58)%N then
                  match JSON.parse_value fuel (JSON.skip_ws s3) with
                  | Some (v, s4) =>
                      match JSON.skip_ws s4 with
                      | [] => None
                      | c' :: s5 =>
                          if (c' =? 44)%N
                          then JSON.members fuel (JSON.skip_ws s5)
                                 ((key, v) :: acc)
                          else if (c' =? 125)%N
                          then Some (rev ((key, v) :: acc), s5)
                          else None
                      end
                  | None => None
                  end
                else None
            end
        | None => None
        end
      else None
  end.
Proof. reflexivity. Qed.

Lemma parse_consumes : forall f,
  (forall s v rest,
      JSON.parse_value f s = Some (v, rest) -> length rest < length s) /\
  (forall s acc l rest,
      JSON.elements f s acc = Some (l, rest) -> length rest < length s) /\
  (forall s acc l rest,
      JSON.members f s acc = Some (l, rest) -> length rest < length s).
Proof.
  induction f as [| f (IHv & IHe & IHm)].
  { repeat split; intros; discriminate. }
  split; [| split].
  - intros s v rest. rewrite parse_value_eq.
    destruct (starts_with s (str "null")) eqn:E1.
    { intros H. assert (Hr : rest = skipn 4 s) by congruence.
      apply starts_with_length in E1. rewrite Hr, length_skipn.
      cbn in E1. lia. }
    destruct (starts_with s (str "true")) eqn:E2.
    { intros H. assert (Hr : rest = skipn 4 s) by congruence.
      apply starts_with_length in E2. rewrite Hr, length_skipn.
      cbn in E2. lia. }
    destruct (starts_with s (str "false")) eqn:E3.
    { intros H. assert (Hr : rest = skipn 5 s) by congruence.
      apply starts_with_length in E3. rewrite Hr, length_skipn.
      cbn in E3. lia. }
    destruct s as [| c r]; [discriminate |]. cbn [length].
    destruct (c =? 34)%N.
    { destruct (JSON.string_body r []) as [[t r'] |] eqn:Hb; [| discriminate].
      intros H. injection H as _ <-.
      apply (string_body_length (length r)) in Hb; lia. }
    destruct (c =? 91)%N.
    { pose proof (skip_ws_length r) as Hw.
      destruct (JSON.skip_ws r) as [| c' r']; [discriminate |].
      cbn [length] in Hw. destruct (c' =? 93)%N.
      { intros H. injection H as _ <-. lia. }
      destruct (JSON.elements f (c' :: r') []) as [[items r''] |] eqn:He;
        [| discriminate].
      apply IHe in He. intros H. injection H as _ <-. cbn [length] in He. lia. }
    destruct (c =? 123)%N.
    { pose proof (skip_ws_length r) as Hw.
      destruct (JSON.skip_ws r) as [| c' r']; [discriminate |].
      cbn [length] in Hw. destruct (c' =? 125)%N.
      { intros H. injection H as _ <-. lia. }
      destruct (JSON.members f (c' :: r') []) as [[ms r''] |] eqn:He;
        [| discriminate].
      apply IHm in He. intros H. injection H as _ <-. cbn [length] in He. lia. }
    destruct (JSON.number (c :: r)) as [[lexeme r'] |] eqn:Hn; [| discriminate].
    apply number_length in Hn. intros H. injection H as _ <-.
    cbn [length] in Hn. lia.
  - intros s acc l rest. rewrite elements_eq.
    destruct (JSON.parse_value f s) as [[v r] |] eqn:Hv; [| discriminate].
    apply IHv in Hv. pose proof (skip_ws_length r) as Hw.
    destruct (JSON.skip_ws r) as [| c r']; [discriminate |].
    cbn [length] in Hw. destruct (c =? 44)%N.
    { intros H. apply IHe in H. pose proof (skip_ws_length r'). lia. }
    destruct (c =? 93)%N; [| discriminate].
    intros H. injection H as _ <-. lia.
  - intros s acc l rest. rewrite members_eq.
    destruct s as [| q s1]; [discriminate |]. cbn [length].
    destruct (q =? 34)%N; [| discriminate].
    destruct (JSON.string_body s1 []) as [[key s2] |] eqn:Hb; [| discriminate].
    apply (string_body_length (length s1)) in Hb; [| lia].
    pose proof (skip_ws_length s2) as Hw2.
    destruct (JSON.skip_ws s2) as [| c s3]; [discriminate |].
    cbn [length] in Hw2. destruct (c =? 58)%N; [| discriminate].
    pose proof (skip_ws_length s3) as Hw3.
    destruct (JSON.parse_value f (JSON.skip_ws s3)) as [[v s4] |] eqn:Hv;
      [| discriminate].
    apply IHv in Hv. pose proof (skip_ws_length s4) as Hw4.
    destruct (JSON.skip_ws s4) as [| c' s5]; [discriminate |].
    cbn [length] in Hw4. destruct (c' =? 44)%N.
    { intros H. apply IHm in H. pose proof (skip_ws_length s5). lia. }
    destruct (c' =? 125)%N; [| discriminate].
    intros H. injection H as _ <-. lia.
Qed.

Lemma parse_fuel_stable : forall f,
  (forall s, 2 * length s + 1 <= f ->
             JSON.parse_value f s = JSON.parse_value (S f) s) /\
  (forall s acc, 2 * length s + 2 <= f ->
                 JSON.elements f s acc = JSON.elements (S f) s acc) /\
  (forall s acc, 2 * length s + 2 <= f ->
                 JSON.members f s acc = JSON.members (S f) s acc).
Proof.
  induction f as [| f (IHv & IHe & IHm)].
  { repeat split; intros; lia. }
  destruct (parse_consumes f) as (Cv & Ce & Cm).
  split; [| split].
  - intros s Hs. rewrite (parse_value_eq f), (parse_value_eq (S f)).
    destruct (starts_with s (str "null")); [reflexivity |].
    destruct (starts_with s (str "true")); [reflexivity |].
    destruct (starts_with s (str "false")); [reflexivity |].
    destruct s as [| c r]; [reflexivity |]. cbn [length] in Hs.
    destruct (c =? 34)%N; [reflexivity |].
    pose proof (skip_ws_length r) as Hw.
    destruct (c =? 91)%N.
    { destruct (JSON.skip_ws r) as [| c' r']; [reflexivity |].
      cbn [length] in Hw. destruct (c' =? 93)%N; [reflexivity |].
      rewrite IHe by (cbn [length]; lia). reflexivity. }
    destruct (c =? 123)%N; [| reflexivity].
    destruct (JSON.skip_ws r) as [| c' r']; [reflexivity |].
    cbn [length] in Hw. destruct (c' =? 125)%N; [reflexivity |].
    rewrite IHm by (cbn [length]; lia). reflexivity.
  - intros s acc Hs. rewrite (elements_eq f), (elements_eq (S f)).
    rewrite <- IHv by lia.
    destruct (JSON.parse_value f s) as [[v r] |] eqn:Hv; [| reflexivity].
    apply Cv in Hv. pose proof (skip_ws_length r) as Hw.
    destruct (JSON.skip_ws r) as [| c r']; [reflexivity |].
    cbn [length] in Hw. destruct (c =? 44)%N; [| reflexivity].
    pose proof (skip_ws_length r').
    rewrite IHe by lia. reflexivity.
  - intros s acc Hs. rewrite (members_eq f), (members_eq (S f)).
    destruct s as [| q s1]; [reflexivity |]. cbn [length] in Hs.
    destruct (q =? 34)%N; [| reflexivity].
    destruct (JSON.string_body s1 []) as [[key s2] |] eqn:Hb; [| reflexivity].
    apply (string_body_length (length s1)) in Hb; [| lia].
    pose proof (skip_ws_length s2) as Hw2.
    destruct (JSON.skip_ws s2) as [| c s3]; [reflexivity |].
    cbn [length] in Hw2. destruct (c =? 58)%N; [| reflexivity].
    pose proof (skip_ws_length s3) as Hw3.
    rewrite <- IHv by lia.
    destruct (JSON.parse_value f (JSON.skip_ws s3)) as [[v s4] |] eqn:Hv;
      [| reflexivity].
    apply Cv in Hv. pose proof (skip_ws_length s4) as Hw4.
    destruct (JSON.skip_ws s4) as [| c' s5]; [reflexivity |].
    cbn [length] in Hw4. destruct (c' =? 44)%N; [| reflexivity].
    pose proof (skip_ws_length s5).
    rewrite IHm by lia. reflexivity.
Qed.

Lemma parse_value_fuel : forall f s,
  2 * length s + 1 <= f ->
  JSON.parse_value f s = JSON.parse_value (2 * length s + 1) s.
Proof.
  induction f as [| f IH]; intros s H; [lia |].
  destruct (Nat.eq_dec (S f) (2 * length s + 1)) as [-> | Hne];
    [reflexivity |].
  rewrite <- (proj1 (parse_fuel_stable f)) by lia. apply IH. lia.
Qed.

(** The counter of [JSON.parse] is as good as any larger one. *)
Lemma JSON_parse_fuel text f :
  2 * length text + 2 <= f ->
  JSON.parse_value f (JSON.skip_ws text) =
  JSON.parse_value (2 * length text + 2) (JSON.skip_ws text).
Proof.
  intros H. pose proof (skip_ws_length text) as Hw.
  rewrite (parse_value_fuel f) by lia.
  rewrite (parse_value_fuel (2 * length text + 2)) by lia.
  reflexivity.
Qed.

(** ** The bullet marker *)

Lemma drop_while_ext p q :
  (forall c, p c = q c) -> forall s, drop_while p s = drop_while q s.
Proof.
  intros E. induction s as [| c s IH]; [reflexivity |].
  cbn. rewrite E, IH. reflexivity.
Qed.

Lemma take_while_ext p q :
  (forall c, p c = q c) -> forall s, take_while p s = take_while q s.
Proof.
  intros E. induction s as [| c s IH]; [reflexivity |].
  cbn. rewrite E, IH. reflexivity.
Qed.

Lemma drop_while_spaces s : drop_while is_space s = drop_spaces s.
Proof. induction s as [| c s IH]; cbn; [| rewrite IH]; reflexivity. Qed.

(** The pattern [^[-*]\s*] matches at the start of the line only, a marker
    and the white space behind it. *)
Lemma match_at_bullet bef aft :
  match_at false re_bullet bef aft =
  match bef, aft with
  | [], c :: rest =>
      if is_bullet c
      then Some (mkMatch [] (c :: take_while is_space rest)
                   (drop_spaces rest) [])
      else None
  | _, _ => None
  end.
Proof.
  unfold match_at, re_bullet, star, esc_s. cbn [cat fold_right].
  cbn [matcher before]. destruct bef as [| b bef]; [| reflexivity].
  unfold char_step. cbn [after before captures].
  destruct aft as [| c rest]; [reflexivity |].
  fold (is_bullet c). destruct (is_bullet c); [| reflexivity].
  rewrite (repeat_single _ _ _ matcher_space) by (cbn; lia).
  cbn [before after captures].
  change (fun y : State => Some y) with (@Some State).
  rewrite greedy_some. cbn [Nat.leb after captures].
  unfold consumed. cbn [after fold_left].
  rewrite drop_while_spaces.
  assert (Hcaps : forall s (caps : list (nat * jsstring)),
             fold_left (fun caps' (_ : char) => caps') s caps = caps).
  { induction s as [| x s IH]; intros caps; [reflexivity | apply IH]. }
  rewrite Hcaps. f_equal. f_equal.
  assert (H : forall s, firstn (length s - length (drop_spaces s)) s =
                        take_while is_space s).
  { induction s as [| x s IH]; [reflexivity |].
    cbn [drop_spaces take_while]. destruct (is_space x).
    - pose proof (drop_spaces_split s) as [pre Hp].
      assert (Hl : length (drop_spaces s) <= length s).
      { rewrite Hp at 2. rewrite length_app. lia. }
      replace (length (x :: s) - length (drop_spaces s))
        with (S (length s - length (drop_spaces s)))
        by (cbn [length]; lia).
      cbn [firstn]. rewrite IH. reflexivity.
    - rewrite Nat.sub_diag. reflexivity. }
  pose proof (drop_spaces_split rest) as [pre Hp].
  assert (Hl : length (drop_spaces rest) <= length rest).
  { rewrite Hp at 2. rewrite length_app. lia. }
  replace (length (c :: rest) - length (drop_spaces rest))
    with (S (length rest - length (drop_spaces rest)))
    by (cbn [length]; lia).
  cbn [firstn]. rewrite H. reflexivity.
Qed.

Lemma replace_loop_bullet_rest : forall fuel bef aft,
  bef <> [] -> length aft < fuel ->
  replace_loop fuel false re_bullet [] bef aft = aft.
Proof.
  induction fuel as [| fuel IH]; intros bef aft Hb Hf; [lia |].
  cbn [replace_loop]. rewrite match_at_bullet.
  destruct bef as [| b bef]; [contradiction |].
  destruct aft as [| a aft]; [reflexivity |].
  cbn [length] in Hf. rewrite IH by (try discriminate; lia). reflexivity.
Qed.

(** Line 96: the line without its marker and the white space behind it. *)
Lemma cleaned_eq line :
  replace_all false re_bullet [] line =
  match line with
  | c :: rest => if is_bullet c then drop_spaces rest else line
  | [] => []
  end.
Proof.
  unfold replace_all. cbn [replace_loop]. rewrite match_at_bullet.
  destruct line as [| c rest]; [reflexivity |].
  destruct (is_bullet c).
  - cbn [m_rest m_text substitution List.map concat app].
    pose proof (drop_spaces_split rest) as [pre Hp].
    assert (Hl : length (drop_spaces rest) <= length rest).
    { rewrite Hp at 2. rewrite length_app. lia. }
    replace (length (drop_spaces rest) <? length (c :: rest))%nat with true
      by (symmetry; apply Nat.ltb_lt; cbn [length]; lia).
    apply replace_loop_bullet_rest.
    + cbn [rev]. intros E. apply app_eq_nil in E. destruct E as [E _].
      apply app_eq_nil in E. destruct E as [_ E]. discriminate.
    + cbn [length]. lia.
  - rewrite replace_loop_bullet_rest; [reflexivity | discriminate |].
    cbn [length]. lia.
Qed.

Lemma lines_of_trimmed text line :
  In line (lines_of text) ->
  line <> [] /\ hd_sat is_space line = false /\
  hd_sat is_space (rev line) = false.
Proof.
  unfold lines_of. intros H. apply filter_In in H. destruct H as [H Ht].
  apply in_map_iff in H. destruct H as (l & <- & _).
  split; [| split; [apply trim_hd | apply trim_last]].
  intros E. rewrite E in Ht. discriminate.
Qed.

Lemma drop_spaces_nil : forall s,
  drop_spaces s = [] -> s <> [] -> hd_sat is_space (rev s) = true.
Proof.
  induction s as [| c s IH]; intros H Hne; [contradiction |].
  cbn [drop_spaces] in H. destruct (is_space c) eqn:Hc; [| discriminate].
  destruct s as [| c' s'].
  - cbn. exact Hc.
  - rewrite hd_sat_rev_cons by discriminate. apply IH; [exact H | discriminate].
Qed.

(** The extent of the empty title: a task has it exactly when its line is
    a bare bullet marker, [-] or [*].  Every other task of [mockExtract] has
    a title that is not empty. *)
Lemma title_empty_iff text line :
  In line (lines_of text) ->
  (title (task_of line) = [] <-> exists c, line = [c] /\ is_bullet c = true).
Proof.
  intros Hin. destruct (lines_of_trimmed text line Hin) as (Hne & Hh & Hl).
  unfold task_of. cbn [title]. rewrite cleaned_eq.
  destruct line as [| c rest]; [contradiction |].
  destruct (is_bullet c) eqn:Hb.
  - split.
    + intros H.
      destruct (250 <? length (drop_spaces rest))%nat.
      { apply app_eq_nil in H. destruct H as [_ H]. discriminate. }
      exists c. split; [| exact Hb]. f_equal.
      destruct rest as [| r rest']; [reflexivity |].
      rewrite hd_sat_rev_cons in Hl by discriminate.
      rewrite (drop_spaces_nil (r :: rest') H) in Hl; discriminate.
    + intros (c' & E & _). injection E as <- ->. reflexivity.
  - split.
    + intros H. destruct (250 <? length (c :: rest))%nat.
      * apply app_eq_nil in H. destruct H as [_ H]. discriminate.
      * discriminate.
    + intros (c' & E & Hc'). injection E as <- ->.
      rewrite Hb in Hc'. discriminate.
Qed.

Lemma titles_nonempty_without_bare_bullets text :
  (forall c, In [c] (lines_of text) -> is_bullet c = false) ->
  exists r, mockExtract text = Normal r /\
            forall t, In t (tasks r) -> title t <> [].
Proof.
  intros H. rewrite mockExtract_eq. eexists. split; [reflexivity |].
  cbn [tasks]. intros t Ht. unfold tasks_of in Ht.
  destruct (found_tasks text) as [| t0 ts] eqn:E.
  - destruct Ht as [<- | []]. discriminate.
  - rewrite <- E in Ht. unfold found_tasks in Ht.
    apply in_map_iff in Ht. destruct Ht as (line & <- & Hin).
    apply filter_In in Hin. destruct Hin as [Hin _].
    intros Hempty. apply (title_empty_iff text line Hin) in Hempty.
    destruct Hempty as (c & -> & Hb).
    rewrite (H c Hin) in Hb. discriminate.
Qed.

(** * Further properties of the code *)

(** ** [tidy]: length, fixed points, what it leaves alone *)

Lemma strip_length : forall s, length (strip_space_punct s) <= length s.
Proof.
  induction s as [| c s IH]; [reflexivity |].
  rewrite strip_cons.
  destruct (is_space c && is_some (punct_after s)); cbn [length]; lia.
Qed.

Lemma squeeze_length p w : forall s b, length (squeeze p w b s) <= length s.
Proof.
  induction s as [| c s IH]; intros b; [reflexivity |].
  rewrite squeeze_cons.
  destruct (p c); [destruct (hd_sat p s) |]; cbn [length];
    try (specialize (IH true); lia); specialize (IH false); lia.
Qed.

Lemma drop_spaces_length s : length (drop_spaces s) <= length s.
Proof.
  destruct (drop_spaces_split s) as [pre H].
  rewrite H at 2. rewrite length_app. lia.
Qed.

Lemma trim_length s : length (trim s) <= length s.
Proof.
  unfold trim. rewrite length_rev.
  pose proof (drop_spaces_length (rev (drop_spaces s))) as H1.
  pose proof (drop_spaces_length s) as H2.
  rewrite length_rev in H1. lia.
Qed.

(** X1.  [tidy] never lengthens a text. *)
Theorem tidy_never_longer (s : jsstring) : length (tidy s) <= length s.
Proof.
  rewrite tidy_direct.
  pose proof (strip_length s) as H1.
  pose proof (squeeze_length is_period period (strip_space_punct s) false)
    as H2.
  pose proof (squeeze_length is_space space
                (squeeze is_period period false (strip_space_punct s)) false)
    as H3.
  pose proof (trim_length
                (squeeze is_space space false
                   (squeeze is_period period false (strip_space_punct s))))
    as H4.
  lia.
Qed.

(** X2.  What [tidy] returns has no white space directly before one of the
    marks [. , ; : ! ?], no two consecutive periods, no two consecutive
    white-space characters, and neither begins nor ends with white space. *)
Theorem tidy_output_normalized (s : jsstring) :
  space_before_punct (tidy s) = false /\
  double_period (tidy s) = false /\
  double_space (tidy s) = false /\
  hd_sat is_space (tidy s) = false /\
  hd_sat is_space (rev (tidy s)) = false.
Proof. exact (tidy_normalized s). Qed.

(** X3.  The texts that [tidy] leaves unchanged are exactly the normalized
    ones. *)
Theorem tidy_fixed_iff_normalized (s : jsstring) :
  tidy s = s <->
  (space_before_punct s = false /\ double_period s = false /\
   double_space s = false /\
   hd_sat is_space s = false /\ hd_sat is_space (rev s) = false).
Proof.
  split.
  - intros E. rewrite <- E. exact (tidy_normalized s).
  - exact (tidy_fix s).
Qed.

Lemma filter_strip P :
  (forall c, is_space c = true -> P c = false) ->
  forall s, filter P (strip_space_punct s) = filter P s.
Proof.
  intros HP. induction s as [| c s IH]; [reflexivity |].
  rewrite strip_cons. destruct (is_space c) eqn:Hc; cbn [andb].
  - destruct (is_some (punct_after s)); cbn [filter];
      rewrite (HP c Hc), IH; reflexivity.
  - cbn [filter]. rewrite IH. reflexivity.
Qed.

Lemma filter_squeeze p w P :
  (forall c, p c = true -> P c = false) -> P w = false ->
  forall s b, filter P (squeeze p w b s) = filter P s.
Proof.
  intros HP Hw. induction s as [| c s IH]; intros b; [reflexivity |].
  rewrite squeeze_cons. destruct (p c) eqn:Hc.
  - destruct (hd_sat p s).
    + cbn [filter]. rewrite (HP c Hc). apply IH.
    + destruct b; cbn [filter]; rewrite ?Hw, ?(HP c Hc); apply IH.
  - cbn [filter]. rewrite IH. reflexivity.
Qed.

Lemma filter_drop_spaces P :
  (forall c, is_space c = true -> P c = false) ->
  forall s, filter P (drop_spaces s) = filter P s.
Proof.
  intros HP. induction s as [| c s IH]; [reflexivity |].
  cbn [drop_spaces]. destruct (is_space c) eqn:Hc; [| reflexivity].
  cbn [filter]. rewrite (HP c Hc). exact IH.
Qed.

Lemma filter_rev' (P : char -> bool) : forall s,
  filter P (rev s) = rev (filter P s).
Proof.
  induction s as [| c s IH]; [reflexivity |].
  cbn [rev filter]. rewrite filter_app, IH. cbn [filter].
  destruct (P c); cbn [rev]; [reflexivity | apply app_nil_r].
Qed.

Lemma filter_trim P :
  (forall c, is_space c = true -> P c = false) ->
  forall s, filter P (trim s) = filter P s.
Proof.
  intros HP s. unfold trim.
  rewrite filter_rev', (filter_drop_spaces P HP), filter_rev', rev_involutive.
  apply (filter_drop_spaces P HP).
Qed.

Lemma solid_not_space c : is_space c = true -> solid c = false.
Proof. unfold solid. intros ->. reflexivity. Qed.

Lemma solid_not_period c : is_period c = true -> solid c = false.
Proof. unfold solid. intros ->. rewrite orb_true_r. reflexivity. Qed.

(** X4.  [tidy] touches white space and periods only: the other characters
    of the text come out as they are, all of them and in their order. *)
Theorem tidy_keeps_solid_characters (s : jsstring) :
  filter solid (tidy s) = filter solid s.
Proof.
  rewrite tidy_direct.
  rewrite (filter_trim solid solid_not_space).
  rewrite (filter_squeeze is_space space solid solid_not_space eq_refl).
  rewrite (filter_squeeze is_period period solid solid_not_period eq_refl).
  apply (filter_strip solid solid_not_space).
Qed.

Lemma existsb_filter_nil (P : char -> bool) : forall s,
  existsb P s = false <-> filter P s = [].
Proof.
  induction s as [| c s IH]; [split; reflexivity |].
  cbn [existsb filter]. destruct (P c); cbn [orb].
  - split; discriminate.
  - exact IH.
Qed.

Lemma existsb_squeeze p w P :
  p w = true -> blind p w P ->
  forall s b, existsb P (squeeze p w b s) = existsb P s.
Proof.
  intros Hw HP. induction s as [| c s IH]; intros b; [reflexivity |].
  rewrite squeeze_cons. destruct (p c) eqn:Hc.
  - destruct (hd_sat p s) eqn:Hh.
    + rewrite IH. cbn [existsb]. destruct s as [| a t]; [discriminate |].
      cbn [hd_sat] in Hh. cbn [existsb].
      rewrite (HP c Hc), <- (HP a Hh). destruct (P a); reflexivity.
    + destruct b; cbn [existsb]; rewrite IH, ?(HP c Hc); reflexivity.
  - cbn [existsb]. rewrite IH. reflexivity.
Qed.

Lemma blank_no_unspaced s :
  blank s = true <-> filter (fun c => negb (is_space c)) s = [].
Proof.
  unfold blank. induction s as [| c s IH]; [split; reflexivity |].
  cbn [forallb filter]. destruct (is_space c); cbn [negb andb].
  - exact IH.
  - split; discriminate.
Qed.

(** X5.  [tidy] returns the empty string exactly for the texts made of
    white space only, the empty text among them. *)
Theorem tidy_empty_iff_blank (s : jsstring) :
  tidy s = [] <-> blank s = true.
Proof.
  set (P := fun c => negb (is_space c)).
  assert (HP : forall c, is_space c = true -> P c = false)
    by (intros c Hc; unfold P; rewrite Hc; reflexivity).
  assert (E : existsb P (tidy s) = existsb P s).
  { rewrite tidy_direct.
    assert (Hx : forall a b, filter P a = filter P b ->
                             existsb P a = existsb P b).
    { intros a b Hab. destruct (existsb P b) eqn:Eb.
      - destruct (existsb P a) eqn:Ea; [reflexivity |].
        apply existsb_filter_nil in Ea. rewrite Hab in Ea.
        apply existsb_filter_nil in Ea. congruence.
      - apply existsb_filter_nil. rewrite Hab.
        apply existsb_filter_nil, Eb. }
    rewrite (Hx _ _ (filter_trim P HP _)).
    rewrite (existsb_squeeze is_space space P eq_refl).
    2: { intros c Hc. unfold P. rewrite Hc. reflexivity. }
    rewrite (existsb_squeeze is_period period P eq_refl (blind_period P)).
    apply Hx, (filter_strip P HP). }
  rewrite blank_no_unspaced. fold P. rewrite <- existsb_filter_nil, <- E.
  split.
  - intros ->. reflexivity.
  - intros H. pose proof (trim_hd_tidy := tidy_normalized s).
    destruct trim_hd_tidy as (_ & _ & _ & Hh & _).
    destruct (tidy s) as [| c t]; [reflexivity |].
    cbn [hd_sat] in Hh. cbn [existsb] in H. unfold P in H at 1.
    rewrite Hh in H. discriminate.
Qed.

(** ** [mockExtract]: the lines and the titles *)

Lemma existsb_rev' (P : char -> bool) : forall s,
  existsb P (rev s) = existsb P s.
Proof.
  induction s as [| c s IH]; [reflexivity |].
  cbn [rev existsb]. rewrite existsb_app, IH. cbn [existsb].
  destruct (P c), (existsb P s); reflexivity.
Qed.

Lemma existsb_drop_spaces (P : char -> bool) s :
  existsb P s = false -> existsb P (drop_spaces s) = false.
Proof.
  destruct (drop_spaces_split s) as [pre H]. intros E.
  rewrite H, existsb_app in E. apply orb_false_iff in E. apply E.
Qed.

Lemma existsb_trim (P : char -> bool) s :
  existsb P s = false -> existsb P (trim s) = false.
Proof.
  intros E. unfold trim. rewrite existsb_rev'.
  apply existsb_drop_spaces. rewrite existsb_rev'.
  apply existsb_drop_spaces, E.
Qed.

Lemma existsb_firstn (P : char -> bool) : forall n s,
  existsb P s = false -> existsb P (firstn n s) = false.
Proof.
  induction n as [| n IH]; intros s E; [reflexivity |].
  destruct s as [| c s]; [reflexivity |].
  cbn [existsb firstn] in *. apply orb_false_iff in E. destruct E as [-> E].
  apply IH, E.
Qed.

Lemma split_from_no_line_feed : forall s cur piece,
  has_line_feed cur = false -> In piece (split_from cur s) ->
  has_line_feed piece = false.
Proof.
  unfold has_line_feed.
  induction s as [| c s IH]; intros cur piece Hc Hin.
  - destruct Hin as [<- | []]. rewrite existsb_rev'. exact Hc.
  - cbn [split_from] in Hin. destruct (c =? 10)%N eqn:E.
    + destruct Hin as [<- | Hin].
      * rewrite existsb_rev'. exact Hc.
      * apply (IH [] piece eq_refl Hin).
    + apply (IH (c :: cur) piece); [| exact Hin].
      cbn [existsb]. rewrite E, Hc. reflexivity.
Qed.

Lemma lines_of_no_line_feed text line :
  In line (lines_of text) -> has_line_feed line = false.
Proof.
  unfold lines_of. intros H. apply filter_In in H. destruct H as [H _].
  apply in_map_iff in H. destruct H as (l & <- & Hl).
  apply existsb_trim. apply (split_from_no_line_feed text [] l eq_refl Hl).
Qed.

(** Line 107 on the cleaned line. *)
Lemma task_of_title line :
  title (task_of line) =
  if (250 <? length (replace_all false re_bullet [] line))%nat
  then firstn 247 (replace_all false re_bullet [] line) ++ str "..."
  else replace_all false re_bullet [] line.
Proof. reflexivity. Qed.

(** Every task of [mockExtract] is the fallback task or the task of one of
    the action lines. *)
Lemma tasks_of_cases text t :
  In t (tasks_of text) ->
  t = fallback_task \/
  exists line, In line (lines_of text) /\ action_line line = true /\
               t = task_of line.
Proof.
  unfold tasks_of. destruct (found_tasks text) as [| t0 ts] eqn:E.
  - intros [<- | []]. left. reflexivity.
  - rewrite <- E. unfold found_tasks. intros H.
    apply in_map_iff in H. destruct H as (line & <- & Hin).
    apply filter_In in Hin. right. exists line. tauto.
Qed.

(** X6.  No title is longer than 250 characters. *)
Theorem title_length_bound (text : jsstring) :
  exists r, mockExtract text = Normal r /\
            forall t, In t (tasks r) -> length (title t) <= 250.
Proof.
  rewrite mockExtract_eq. eexists. split; [reflexivity |].
  cbn [tasks]. intros t Ht.
  destruct (tasks_of_cases text t Ht) as [-> | (line & _ & _ & ->)].
  - cbn. lia.
  - rewrite task_of_title.
    destruct (250 <? length (replace_all false re_bullet [] line))%nat eqn:E.
    + apply Nat.ltb_lt in E. rewrite length_app, length_firstn.
      change (length (str "...")) with 3. lia.
    + apply Nat.ltb_ge in E. exact E.
Qed.

Lemma cleaned_facts text line :
  In line (lines_of text) ->
  hd_sat is_space (replace_all false re_bullet [] line) = false /\
  hd_sat is_space (rev (replace_all false re_bullet [] line)) = false /\
  has_line_feed (replace_all false re_bullet [] line) = false.
Proof.
  intros Hin. destruct (lines_of_trimmed text line Hin) as (Hne & Hh & Hl).
  pose proof (lines_of_no_line_feed text line Hin) as Hf.
  rewrite cleaned_eq. destruct line as [| c rest]; [contradiction |].
  destruct (is_bullet c); [| repeat split; assumption].
  split; [apply drop_spaces_hd |]. split.
  - destruct (drop_spaces_split rest) as [pre Hp].
    destruct (drop_spaces rest) as [| d ds] eqn:Ed; [reflexivity |].
    assert (Hr : rest <> []) by (intros ->; discriminate).
    rewrite hd_sat_rev_cons in Hl by exact Hr.
    rewrite Hp in Hl. rewrite hd_sat_rev_suffix in Hl by discriminate.
    exact Hl.
  - unfold has_line_feed in *. apply existsb_drop_spaces.
    cbn [existsb] in Hf. apply orb_false_iff in Hf. apply Hf.
Qed.

(** X7.  Every title is a single trimmed line: it neither begins nor ends
    with white space and holds no line feed. *)
Theorem title_is_trimmed_line (text : jsstring) :
  exists r, mockExtract text = Normal r /\
            forall t, In t (tasks r) ->
              hd_sat is_space (title t) = false /\
              hd_sat is_space (rev (title t)) = false /\
              has_line_feed (title t) = false.
Proof.
  rewrite mockExtract_eq. eexists. split; [reflexivity |].
  cbn [tasks]. intros t Ht.
  destruct (tasks_of_cases text t Ht) as [-> | (line & Hin & _ & ->)].
  - repeat split; reflexivity.
  - rewrite task_of_title.
    destruct (cleaned_facts text line Hin) as (Hh & Hl & Hf).
    set (cl := replace_all false re_bullet [] line) in *.
    destruct (250 <? length cl)%nat eqn:E; [| repeat split; assumption].
    apply Nat.ltb_lt in E. split; [| split].
    + destruct cl as [| c cl']; [cbn in E; lia |]. exact Hh.
    + rewrite rev_app_distr. reflexivity.
    + unfold has_line_feed in *. rewrite existsb_app.
      rewrite (existsb_firstn _ 247 cl Hf). reflexivity.
Qed.

Lemma blank_drop_spaces : forall s, blank s = true -> drop_spaces s = [].
Proof.
  unfold blank. induction s as [| c s IH]; intros H; [reflexivity |].
  cbn [forallb] in H. apply andb_true_iff in H. destruct H as [Hc H].
  cbn [drop_spaces]. rewrite Hc. apply IH, H.
Qed.

Lemma blank_rev s : blank (rev s) = blank s.
Proof.
  unfold blank. induction s as [| c s IH]; [reflexivity |].
  cbn [rev forallb]. rewrite forallb_app, IH. cbn [forallb].
  destruct (is_space c), (forallb is_space s); reflexivity.
Qed.

Lemma split_from_blank : forall s cur piece,
  blank cur = true -> blank s = true -> In piece (split_from cur s) ->
  blank piece = true.
Proof.
  induction s as [| c s IH]; intros cur piece Hc Hs Hin.
  - destruct Hin as [<- | []]. rewrite blank_rev. exact Hc.
  - unfold blank in Hs. cbn [forallb] in Hs. apply andb_true_iff in Hs.
    destruct Hs as [Hsc Hs]. cbn [split_from] in Hin.
    destruct (c =? 10)%N.
    + destruct Hin as [<- | Hin].
      * rewrite blank_rev. exact Hc.
      * apply (IH [] piece eq_refl Hs Hin).
    + apply (IH (c :: cur) piece); [| exact Hs | exact Hin].
      unfold blank in *. cbn [forallb]. rewrite Hsc, Hc. reflexivity.
Qed.

Lemma lines_of_blank text : blank text = true -> lines_of text = [].
Proof.
  intros H. unfold lines_of, split_nl.
  assert (Hp : forall piece, In piece (split_from [] text) ->
                             trim piece = []).
  { intros piece Hin. unfold trim.
    rewrite (blank_drop_spaces piece
               (split_from_blank text [] piece eq_refl H Hin)).
    reflexivity. }
  induction (split_from [] text) as [| p ps IH]; [reflexivity |].
  cbn [List.map filter]. rewrite (Hp p (or_introl eq_refl)).
  cbn [truthy]. apply IH. intros piece Hin. apply Hp. right. exact Hin.
Qed.

(** X8.  For a text of white space only, the empty text included, the
    answer is the fallback task alone, with the follow-up that names it. *)
Theorem blank_text_fallback (text : jsstring) :
  blank text = true -> mockExtract text = Normal fallback_answer.
Proof.
  intros H. rewrite mockExtract_eq. unfold tasks_of, found_tasks.
  rewrite (lines_of_blank text H). reflexivity.
Qed.

Lemma blank_text_fallback_witness :
  mockExtract [32%N; 10%N; 9%N; 13%N; 10%N] = Normal fallback_answer.
Proof. apply blank_text_fallback. reflexivity. Defined.

Lemma split_from_length : forall s cur, 1 <= length (split_from cur s).
Proof.
  induction s as [| c s IH]; intros cur; cbn [split_from]; [cbn; lia |].
  destruct (c =? 10)%N; [cbn [length]; lia | apply IH].
Qed.

Lemma filter_length_bound {A : Type} (f : A -> bool) : forall l,
  length (filter f l) <= length l.
Proof.
  induction l as [| a l IH]; [reflexivity |].
  cbn [filter]. destruct (f a); cbn [length]; lia.
Qed.

(** X9.  There is at least one task, and there are at most as many tasks as
    the text has lines. *)
Theorem task_count_bounds (text : jsstring) :
  exists r, mockExtract text = Normal r /\
            1 <= length (tasks r) <= length (split_nl text).
Proof.
  rewrite mockExtract_eq. eexists. split; [reflexivity |].
  cbn [tasks]. unfold tasks_of.
  pose proof (split_from_length text []) as H1. fold (split_nl text) in H1.
  assert (H2 : length (found_tasks text) <= length (split_nl text)).
  { unfold found_tasks, lines_of. rewrite length_map.
    pose proof (filter_length_bound action_line
                  (filter truthy (List.map trim (split_nl text)))) as Ha.
    pose proof (filter_length_bound truthy
                  (List.map trim (split_nl text))) as Hb.
    rewrite length_map in Hb. lia. }
  destruct (found_tasks text) as [| t ts]; cbn [length] in *; lia.
Qed.

Lemma bullet_is_action c rest :
  is_bullet c = true -> action_line (c :: rest) = true.
Proof.
  intros H. unfold action_line, test, match_. cbn [exec_from].
  rewrite match_at_bullet, H. reflexivity.
Qed.

Lemma task_in_tasks text line :
  In line (lines_of text) -> action_line line = true ->
  In (task_of line) (tasks_of text).
Proof.
  intros Hin Ha. unfold tasks_of.
  assert (H : In (task_of line) (found_tasks text)).
  { unfold found_tasks. apply in_map. apply filter_In. split; assumption. }
  destruct (found_tasks text); [contradiction | exact H].
Qed.

(** X10.  A line that begins with a marker [-] or [*] always yields a task.
    Its title is the line without the marker and the white space behind
    it; when that is longer than 250 characters, its first 247 characters
    followed by three periods. *)
Theorem bullet_line_title (text : jsstring) (c : char) (rest : jsstring) :
  In (c :: rest) (lines_of text) ->
  is_bullet c = true ->
  exists r t, mockExtract text = Normal r /\ In t (tasks r) /\
              title t =
              if (250 <? length (drop_spaces rest))%nat
              then firstn 247 (drop_spaces rest) ++ str "..."
              else drop_spaces rest.
Proof.
  intros Hin Hb. rewrite mockExtract_eq.
  eexists. exists (task_of (c :: rest)). split; [reflexivity |].
  cbn [tasks]. split.
  - apply task_in_tasks; [exact Hin | apply bullet_is_action, Hb].
  - rewrite task_of_title, cleaned_eq, Hb. reflexivity.
Qed.

Lemma bullet_line_title_witness :
  exists r t,
    mockExtract (str "notes of Monday" ++ [10%N] ++ str " *   call Bob ") =
      Normal r /\
    In t (tasks r) /\ title t = str "call Bob".
Proof.
  apply (bullet_line_title _ (ch "*") (str "   call Bob")).
  - vm_compute. right. left. reflexivity.
  - reflexivity.
Defined.

(** X11.  An action line without a marker, found by one of the action
    words, yields a task whose title is the trimmed line itself (when the
    line is at most 250 characters long). *)
Theorem keyword_line_title (text line : jsstring) :
  In line (lines_of text) ->
  action_line line = true ->
  hd_sat is_bullet line = false ->
  length line <= 250 ->
  exists r t, mockExtract text = Normal r /\ In t (tasks r) /\
              title t = line.
Proof.
  intros Hin Ha Hb Hlen. rewrite mockExtract_eq.
  eexists. exists (task_of line). split; [reflexivity |].
  cbn [tasks]. split; [apply task_in_tasks; assumption |].
  rewrite task_of_title, cleaned_eq.
  destruct line as [| c rest]; [reflexivity |].
  cbn [hd_sat] in Hb. rewrite Hb.
  apply Nat.ltb_ge in Hlen. rewrite Hlen. reflexivity.
Qed.

Lemma keyword_line_title_witness :
  exists r t,
    mockExtract (str "  Alice WILL send the slides.  ") = Normal r /\
    In t (tasks r) /\ title t = str "Alice WILL send the slides.".
Proof.
  apply keyword_line_title.
  - vm_compute. left. reflexivity.
  - vm_compute. reflexivity.
  - reflexivity.
  - vm_compute. lia.
Defined.

(** A text that begins with normalized text which does not end in white
    space or a period keeps that beginning under [tidy]. *)
Lemma trim_app_head a z :
  a <> [] -> hd_sat is_space a = false -> hd_sat is_space (rev a) = false ->
  trim (a ++ z) = a ++ rev (drop_spaces (rev z)).
Proof.
  intros Hne Hh Hl. unfold trim.
  rewrite (drop_spaces_fix (a ++ z)).
  2: { rewrite hd_sat_app. destruct a; [contradiction | exact Hh]. }
  rewrite rev_app_distr, (drop_spaces_app (rev z) (rev a) Hl).
  rewrite rev_app_distr, rev_involutive. reflexivity.
Qed.

Lemma tidy_keeps_head1 y :
  exists z, tidy (head1 ++ y) = head1 ++ z.
Proof.
  rewrite tidy_direct.
  rewrite (strip_app_clean head1 y) by reflexivity.
  rewrite (squeeze_app_clean is_period period head1) by reflexivity.
  rewrite (squeeze_app_clean is_space space head1) by reflexivity.
  rewrite trim_app_head by (try discriminate; reflexivity).
  eexists. reflexivity.
Qed.

(** X12.  Whatever the text, the follow-up begins with "Thanks everyone for
    the meeting. Next actions:". *)
Theorem followUp_starts_with_thanks (text : jsstring) :
  exists r, mockExtract text = Normal r /\
            starts_with (followUp r)
              (str "Thanks everyone for the meeting. Next actions:") = true.
Proof.
  rewrite mockExtract_eq. eexists. split; [reflexivity |].
  cbn [followUp]. change follow_head with (head1 ++ [space]).
  rewrite <- app_assoc.
  destruct (tidy_keeps_head1
              ([space] ++ joined_titles (tasks_of text) ++ follow_tail))
    as [z ->].
  apply starts_with_app.
Qed.

(** ** [mockExtract]: notes put together *)

Lemma split_from_app : forall a cur b,
  split_from cur (a ++ 10%N :: b) = split_from cur a ++ split_from [] b.
Proof.
  induction a as [| c a IH]; intros cur b.
  - reflexivity.
  - cbn [app split_from]. destruct (c =? 10)%N.
    + rewrite IH. reflexivity.
    + apply IH.
Qed.

Lemma lines_of_app a b :
  lines_of (a ++ 10%N :: b) = lines_of a ++ lines_of b.
Proof.
  unfold lines_of, split_nl.
  rewrite split_from_app, map_app, filter_app. reflexivity.
Qed.

Lemma found_tasks_app a b :
  found_tasks (a ++ 10%N :: b) = found_tasks a ++ found_tasks b.
Proof.
  unfold found_tasks. rewrite lines_of_app, filter_app, map_app.
  reflexivity.
Qed.

Lemma found_tasks_nonempty text :
  existsb action_line (lines_of text) = true -> found_tasks text <> [].
Proof.
  unfold found_tasks. induction (lines_of text) as [| l ls IH];
    [discriminate |].
  cbn [existsb filter]. destruct (action_line l); [discriminate |].
  exact IH.
Qed.

(** X13.  Lines are handled one by one: when two texts with action lines
    are put together, a line feed between them, the tasks of the whole are
    the tasks of the first followed by the tasks of the second. *)
Theorem tasks_of_joined_notes (a b : jsstring)
    (ra rb : ResponseBody (list Task)) :
  mockExtract a = Normal ra -> mockExtract b = Normal rb ->
  existsb action_line (lines_of a) = true ->
  existsb action_line (lines_of b) = true ->
  exists r, mockExtract (a ++ [10%N] ++ b) = Normal r /\
            tasks r = tasks ra ++ tasks rb.
Proof.
  rewrite !mockExtract_eq. intros Ha Hb Hfa Hfb.
  injection Ha as <-. injection Hb as <-.
  eexists. split; [reflexivity |]. cbn [tasks app].
  unfold tasks_of. rewrite found_tasks_app.
  apply found_tasks_nonempty in Hfa, Hfb.
  destruct (found_tasks a) as [| ta tas]; [contradiction |].
  destruct (found_tasks b) as [| tb tbs]; [contradiction |].
  reflexivity.
Qed.

Lemma mockExtract_total_pair a b :
  exists ra rb, mockExtract a = Normal ra /\ mockExtract b = Normal rb.
Proof. rewrite !mockExtract_eq. eexists. eexists. split; reflexivity. Qed.

Lemma tasks_of_joined_notes_witness :
  exists r,
    mockExtract (str "- call Bob" ++ [10%N] ++ str "Please send the slides")
      = Normal r /\
    List.map title (tasks r) = [str "call Bob"; str "Please send the slides"].
Proof.
  destruct (mockExtract_total_pair (str "- call Bob")
              (str "Please send the slides")) as (ra & rb & Ha & Hb).
  destruct (tasks_of_joined_notes _ _ ra rb Ha Hb eq_refl eq_refl)
    as (r & H & Ht).
  exists r. split; [exact H |]. rewrite Ht.
  vm_compute in Ha, Hb. injection Ha as <-. injection Hb as <-.
  reflexivity.
Defined.

(** ** What a match hands to its continuation *)

Lemma matcher_seq ic a b x c :
  matcher ic (Seq a b) x c = matcher ic a x (fun y => matcher ic b y c).
Proof. reflexivity. Qed.

Lemma matcher_class ic items x c :
  matcher ic (Class items) x c = char_step (class_has ic items) x c.
Proof. reflexivity. Qed.

Lemma matcher_group ic n r x c :
  matcher ic (Group n r) x c =
  matcher ic r x
    (fun y => c (mkState (before y) (after y)
                   ((n, consumed x y) :: captures y))).
Proof. reflexivity. Qed.

Lemma repeat_matcher_cont (m : State -> Cont -> option State) :
  (forall x d z, m x d = Some z -> exists y, d y = Some z) ->
  forall fuel min x c z,
    repeat_matcher m fuel min x c = Some z -> exists y, c y = Some z.
Proof.
  intros Hm. induction fuel as [| fuel IH]; intros min x c z H;
    [discriminate |].
  cbn [repeat_matcher] in H.
  set (d := fun y : State =>
              if (min =? 0)%nat && (length (after x) <=? length (after y))%nat
              then None
              else repeat_matcher m fuel (pred min) y c) in H.
  assert (Hd : forall z', m x d = Some z' -> exists y, c y = Some z').
  { intros z' Hz. apply Hm in Hz. destruct Hz as [y Hy]. unfold d in Hy.
    destruct ((min =? 0)%nat && (length (after x) <=? length (after y))%nat);
      [discriminate |].
    apply IH in Hy. exact Hy. }
  destruct min as [| k].
  - destruct (m x d) as [z' |] eqn:E.
    + injection H as <-. apply Hd. reflexivity.
    + exists x. exact H.
  - apply Hd, H.
Qed.

(** A successful match is a success of the continuation: the matcher
    invents no result of its own. *)
Lemma matcher_cont : forall r ic x c z,
  matcher ic r x c = Some z -> exists y, c y = Some z.
Proof.
  induction r as [| l | items | r1 IH1 r2 IH2 | r1 IH1 r2 IH2 | min r IH
                  | n r IH | |]; intros ic x c z H; cbn [matcher] in H.
  - exists x. exact H.
  - unfold char_step in H. destruct (after x) as [| a rest]; [discriminate |].
    destruct (same_char ic l a); [| discriminate]. eexists. exact H.
  - unfold char_step in H. destruct (after x) as [| a rest]; [discriminate |].
    destruct (class_has ic items a); [| discriminate]. eexists. exact H.
  - apply IH1 in H. destruct H as [y H]. apply IH2 in H. exact H.
  - destruct (matcher ic r1 x c) as [z' |] eqn:E.
    + injection H as <-. apply IH1 in E. exact E.
    + apply IH2 in H. exact H.
  - apply (repeat_matcher_cont (matcher ic r)) in H; [exact H |].
    intros x' d z' Hz. apply IH in Hz. exact Hz.
  - apply IH in H. destruct H as [y H]. eexists. exact H.
  - destruct (before x); [| discriminate]. exists x. exact H.
  - destruct (xorb (word_before x) (word_after x)); [| discriminate].
    exists x. exact H.
Qed.

Lemma fold_left_keep (caps : list (nat * jsstring)) : forall s : jsstring,
  fold_left (fun caps' (_ : char) => caps') s caps = caps.
Proof. induction s as [| c s IH]; [reflexivity | exact IH]. Qed.

(** A greedy run hands on a state behind [k] characters of the class, with
    [k] at least [min]. *)
Lemma greedy_cont p : forall aft min bef caps c z,
  greedy p (fun caps' _ => caps') min bef aft caps c = Some z ->
  exists k,
    min <= k /\ k <= length aft /\ forallb p (firstn k aft) = true /\
    c (mkState (rev (firstn k aft) ++ bef) (skipn k aft) caps) = Some z.
Proof.
  induction aft as [| a rest IH]; intros min bef caps c z H.
  - cbn [greedy] in H. destruct min; [| discriminate].
    exists 0. cbn. repeat split; try lia. exact H.
  - cbn [greedy] in H.
    assert (Hhere : (if (min =? 0)%nat
                     then c (mkState bef (a :: rest) caps) else None) = Some z ->
                    exists k, min <= k /\ k <= length (a :: rest) /\
                      forallb p (firstn k (a :: rest)) = true /\
                      c (mkState (rev (firstn k (a :: rest)) ++ bef)
                           (skipn k (a :: rest)) caps) = Some z).
    { intros Hh. destruct min; [| discriminate].
      exists 0. cbn. repeat split; try lia. exact Hh. }
    destruct (p a) eqn:Hp; [| apply Hhere, H].
    destruct (greedy p (fun caps' _ => caps') (pred min) (a :: bef) rest caps c)
      as [z' |] eqn:E; [| apply Hhere, H].
    injection H as <-. apply IH in E.
    destruct E as (k & Hk1 & Hk2 & Hk3 & Hk4).
    exists (S k). cbn [firstn skipn forallb rev length].
    rewrite Hp, Hk3, <- app_assoc. repeat split; try lia. exact Hk4.
Qed.

Lemma consumed_firstn bef aft caps k bef' caps' :
  k <= length aft ->
  consumed (mkState bef aft caps) (mkState bef' (skipn k aft) caps') =
  firstn k aft.
Proof.
  intros Hk. unfold consumed. cbn [after]. rewrite length_skipn.
  replace (length aft - (length aft - k)) with k by lia. reflexivity.
Qed.

Lemma capture_head n s caps : capture n ((n, s) :: caps) = Some s.
Proof. cbn [capture]. rewrite Nat.eqb_refl. reflexivity. Qed.

(** A group [(C{min,})] in front of a continuation that keeps the captures:
    the group holds at least [min] characters of the class [C]. *)
Lemma group_class ic n min items x (c : Cont) z :
  (forall y z', c y = Some z' -> captures z' = captures y) ->
  matcher ic (Group n (Repeat min (Class items))) x c = Some z ->
  exists d, capture n (captures z) = Some d /\ min <= length d /\
            forallb (class_has ic items) d = true.
Proof.
  intros Hc H. rewrite matcher_group, matcher_repeat_class in H.
  apply greedy_cont in H. destruct H as (k & Hk1 & Hk2 & Hk3 & Hk4).
  apply Hc in Hk4. cbn [captures before after] in Hk4.
  destruct x as [bef aft caps]. cbn [before after captures] in *.
  rewrite (consumed_firstn bef aft caps k _ _ Hk2) in Hk4.
  exists (firstn k aft). rewrite Hk4, capture_head, length_firstn.
  repeat split; [lia | exact Hk3].
Qed.

(** The same for a group [(AB{min,})]. *)
Lemma group_class2 ic n min first_items items x (c : Cont) z :
  (forall y z', c y = Some z' -> captures z' = captures y) ->
  matcher ic (Group n (Seq (Class first_items) (Repeat min (Class items))))
    x c = Some z ->
  exists a d, capture n (captures z) = Some (a :: d) /\
              class_has ic first_items a = true /\ min <= length d /\
              forallb (class_has ic items) d = true.
Proof.
  intros Hc H. rewrite matcher_group, matcher_seq, matcher_class in H.
  unfold char_step in H.
  destruct x as [bef aft caps]. cbn [before after captures] in H.
  destruct aft as [| a rest]; [discriminate |].
  destruct (class_has ic first_items a) eqn:Ha; [| discriminate].
  rewrite matcher_repeat_class in H. cbn [before after captures] in H.
  apply greedy_cont in H. destruct H as (k & Hk1 & Hk2 & Hk3 & Hk4).
  apply Hc in Hk4. cbn [captures before after] in Hk4.
  assert (Hcons : consumed (mkState bef (a :: rest) caps)
                    (mkState (rev (firstn k rest) ++ a :: bef)
                       (skipn k rest) caps) = a :: firstn k rest).
  { change (skipn k rest) with (skipn (S k) (a :: rest)).
    rewrite consumed_firstn by (cbn [length]; lia). reflexivity. }
  rewrite Hcons in Hk4.
  exists a, (firstn k rest). rewrite Hk4, capture_head, length_firstn.
  repeat split; [exact Ha | lia | exact Hk3].
Qed.

Lemma exec_from_some ic r : forall aft bef m,
  exec_from ic r bef aft = Some m ->
  exists bef' aft', match_at ic r bef' aft' = Some m.
Proof.
  induction aft as [| a aft IH]; intros bef m H; cbn [exec_from] in H.
  - destruct (match_at ic r bef []) eqn:E; [| discriminate].
    injection H as <-. eauto.
  - destruct (match_at ic r bef (a :: aft)) eqn:E.
    + injection H as <-. eauto.
    + apply IH in H. exact H.
Qed.

Lemma match_at_some ic r bef aft m :
  match_at ic r bef aft = Some m ->
  exists z, matcher ic r (mkState bef aft []) Some = Some z /\
            m_captures m = captures z.
Proof.
  unfold match_at.
  destruct (matcher ic r (mkState bef aft []) Some) as [z |]; [| discriminate].
  intros H. injection H as <-. exists z. split; reflexivity.
Qed.

(** ** The classes of the patterns, character by character *)

Lemma in_enum_from : forall n lo c,
  (lo <= c)%N -> (c < lo + N.of_nat n)%N -> In c (enum_from lo n).
Proof.
  induction n as [| n IH]; intros lo c H1 H2; [lia |].
  cbn [enum_from]. destruct (N.eq_dec lo c) as [-> | Hne].
  - left. reflexivity.
  - right. apply IH; lia.
Qed.

Lemma enum_from_bound : forall n lo l,
  In l (enum_from lo n) -> (lo <= l)%N /\ (l < lo + N.of_nat n)%N.
Proof.
  induction n as [| n IH]; intros lo l H; [contradiction |].
  cbn [enum_from] in H. destruct H as [<- | H]; [lia |].
  apply IH in H. lia.
Qed.

Lemma range_members_le lo hi l : In l (range_members lo hi) -> (l <= hi)%N.
Proof.
  unfold range_members. intros H. apply enum_from_bound in H.
  destruct (N.le_gt_cases lo (N.succ hi)); lia.
Qed.

Lemma char_in_high lo hi c :
  (hi < 128)%N -> (128 <= c)%N -> char_in lo hi c = false.
Proof.
  intros H1 H2. unfold char_in. apply andb_false_iff. right.
  apply N.leb_gt. lia.
Qed.

Lemma eqb_high k c : (k < 128)%N -> (128 <= c)%N -> (c =? k)%N = false.
Proof. intros H1 H2. apply N.eqb_neq. lia. Qed.

Lemma same_char_high ic l c :
  (l < 128)%N -> (128 <= c)%N -> same_char ic l c = false.
Proof.
  intros H1 H2. unfold same_char, canonicalize, is_lower.
  rewrite (char_in_high 97%N 122%N c) by (try reflexivity; exact H2).
  rewrite andb_false_r. apply N.eqb_neq.
  destruct (ic && char_in 97 122 l); lia.
Qed.

Lemma range_high ic lo hi c :
  (hi < 128)%N -> (128 <= c)%N ->
  existsb (fun l => same_char ic l c) (range_members lo hi) = false.
Proof.
  intros H1 H2. destruct (existsb _ _) eqn:E; [| reflexivity].
  apply existsb_exists in E. destruct E as (l & Hin & Hl).
  apply range_members_le in Hin.
  rewrite same_char_high in Hl by lia. discriminate.
Qed.

(** Two predicates that agree on the 128 ASCII code units, which is
    computed, and from 128 on, agree everywhere. *)
Lemma by_ascii_cases (f g : char -> bool) :
  forallb (fun c => Bool.eqb (f c) (g c)) (enum_from 0%N 128) = true ->
  (forall c, (128 <= c)%N -> f c = g c) ->
  forall c, f c = g c.
Proof.
  intros Hlow Hhigh c. destruct (N.lt_ge_cases c 128) as [Hc | Hc].
  - rewrite forallb_forall in Hlow. apply eqb_prop, Hlow.
    apply in_enum_from; lia.
  - apply Hhigh, Hc.
Qed.

Ltac high_class :=
  intros c Hc;
  unfold class_has, is_letter, is_due_char, is_upper, is_lower, is_digit;
  cbn [existsb atom_has];
  rewrite ?(range_high _ _ _ c) by (try reflexivity; exact Hc);
  rewrite ?(same_char_high _ _ c) by (try reflexivity; exact Hc);
  rewrite ?(char_in_high _ _ c) by (try reflexivity; exact Hc);
  rewrite ?(eqb_high _ c) by (try reflexivity; exact Hc);
  reflexivity.

Lemma class_upper_i c :
  class_has true [Range (ch "A") (ch "Z")] c = is_letter c.
Proof.
  revert c. apply by_ascii_cases; [vm_compute; reflexivity | high_class].
Qed.

Lemma class_letters_i c :
  class_has true [Range (ch "a") (ch "z"); Range (ch "A") (ch "Z")] c =
  is_letter c.
Proof.
  revert c. apply by_ascii_cases; [vm_compute; reflexivity | high_class].
Qed.

Lemma class_upper c : class_has false [Range (ch "A") (ch "Z")] c = is_upper c.
Proof.
  revert c. apply by_ascii_cases; [vm_compute; reflexivity | high_class].
Qed.

Lemma class_lower c : class_has false [Range (ch "a") (ch "z")] c = is_lower c.
Proof.
  revert c. apply by_ascii_cases; [vm_compute; reflexivity | high_class].
Qed.

Lemma class_due c :
  class_has true
    [Range (ch "A") (ch "Z"); Range (ch "a") (ch "z");
     Range (ch "0") (ch "9"); Lit (ch " "); Lit (ch ","); Lit (ch ".");
     Lit (ch "-")] c = is_due_char c.
Proof.
  revert c. apply by_ascii_cases; [vm_compute; reflexivity | high_class].
Qed.

Lemma forallb_eq (f g : char -> bool) :
  (forall c, f c = g c) -> forall s, forallb f s = forallb g s.
Proof.
  intros E. induction s as [| c s IH]; [reflexivity |].
  cbn [forallb]. rewrite E, IH. reflexivity.
Qed.

(** ** The assignee and the due phrase *)

Lemma some_keeps_captures : forall y z',
  matcher true Empty y Some = Some z' -> captures z' = captures y.
Proof. intros y z' H. cbn in H. injection H as <-. reflexivity. Qed.

Lemma boundary_keeps_captures : forall y z',
  matcher false (Seq WordBoundary Empty) y Some = Some z' ->
  captures z' = captures y.
Proof.
  intros y z' H. cbn [matcher] in H.
  destruct (xorb (word_before y) (word_after y)); [| discriminate].
  injection H as <-. reflexivity.
Qed.

Lemma due_capture cleaned m :
  match_ true re_due cleaned = Some m ->
  exists d, group 2 m = Some d /\ 1 <= length d /\
            forallb is_due_char d = true.
Proof.
  unfold match_. intros H. apply exec_from_some in H.
  destruct H as (bef & aft & H). apply match_at_some in H.
  destruct H as (z & Hz & Hcaps).
  unfold re_due in Hz. cbn [cat fold_right] in Hz.
  rewrite matcher_seq in Hz. apply matcher_cont in Hz. destruct Hz as [y1 Hz].
  rewrite matcher_seq in Hz. apply matcher_cont in Hz. destruct Hz as [y2 Hz].
  rewrite matcher_seq in Hz. apply matcher_cont in Hz. destruct Hz as [y3 Hz].
  rewrite matcher_seq in Hz. unfold plus in Hz.
  apply group_class in Hz; [| exact some_keeps_captures].
  destruct Hz as (d & Hd & Hlen & Hall).
  exists d. cbn [group]. rewrite Hcaps, Hd.
  rewrite (forallb_eq _ _ class_due) in Hall. auto.
Qed.

Lemma assigned_capture cleaned m :
  match_ true re_assigned cleaned = Some m ->
  exists a, group 1 m = Some a /\ 2 <= length a /\
            forallb is_letter a = true.
Proof.
  unfold match_. intros H. apply exec_from_some in H.
  destruct H as (bef & aft & H). apply match_at_some in H.
  destruct H as (z & Hz & Hcaps).
  unfold re_assigned in Hz. cbn [cat fold_right] in Hz.
  rewrite matcher_seq in Hz. apply matcher_cont in Hz. destruct Hz as [y1 Hz].
  rewrite matcher_seq in Hz. apply matcher_cont in Hz. destruct Hz as [y2 Hz].
  rewrite matcher_seq in Hz. apply matcher_cont in Hz. destruct Hz as [y3 Hz].
  rewrite matcher_seq in Hz. unfold plus in Hz.
  apply group_class2 in Hz; [| exact some_keeps_captures].
  destruct Hz as (a & d & Hd & Ha & Hlen & Hall).
  exists (a :: d). cbn [group]. rewrite Hcaps, Hd.
  rewrite class_upper_i in Ha.
  rewrite (forallb_eq _ _ class_letters_i) in Hall.
  cbn [length forallb]. rewrite Ha, Hall. repeat split. lia.
Qed.

Lemma capword_capture cleaned m :
  match_ false re_capword cleaned = Some m ->
  exists a d, group 1 m = Some (a :: d) /\ is_upper a = true /\
              2 <= length d /\ forallb is_lower d = true.
Proof.
  unfold match_. intros H. apply exec_from_some in H.
  destruct H as (bef & aft & H). apply match_at_some in H.
  destruct H as (z & Hz & Hcaps).
  unfold re_capword in Hz. cbn [cat fold_right] in Hz.
  rewrite matcher_seq in Hz. apply matcher_cont in Hz. destruct Hz as [y1 Hz].
  rewrite matcher_seq in Hz.
  apply group_class2 in Hz; [| exact boundary_keeps_captures].
  destruct Hz as (a & d & Hd & Ha & Hlen & Hall).
  exists a, d. cbn [group]. rewrite Hcaps, Hd.
  rewrite class_upper in Ha. rewrite (forallb_eq _ _ class_lower) in Hall.
  auto.
Qed.

Lemma lower_is_letter s : forallb is_lower s = true -> forallb is_letter s = true.
Proof.
  induction s as [| c s IH]; [reflexivity |].
  cbn [forallb]. intros H. apply andb_true_iff in H. destruct H as [Hc H].
  unfold is_letter at 1. rewrite Hc, orb_true_r. apply IH, H.
Qed.

(** X14.  An assignee, when there is one, is a word of at least two ASCII
    letters and of nothing else. *)
Theorem assignee_is_a_word (text : jsstring) :
  exists r, mockExtract text = Normal r /\
            forall t a, In t (tasks r) -> assignee t = Some a ->
                        2 <= length a /\ forallb is_letter a = true.
Proof.
  rewrite mockExtract_eq. eexists. split; [reflexivity |].
  cbn [tasks]. intros t a Ht Ha.
  destruct (tasks_of_cases text t Ht) as [-> | (line & _ & _ & ->)];
    [discriminate |].
  unfold task_of in Ha. cbn [assignee] in Ha.
  set (cl := replace_all false re_bullet [] line) in Ha.
  destruct (match_ true re_assigned cl) as [m1 |] eqn:E1.
  - cbn [or_else opt_group] in Ha.
    destruct (assigned_capture cl m1 E1) as (a' & Hg & Hlen & Hall).
    rewrite Hg in Ha. injection Ha as <-. auto.
  - cbn [or_else] in Ha.
    destruct (match_ false re_capword cl) as [m2 |] eqn:E2; [| discriminate].
    cbn [opt_group] in Ha.
    destruct (capword_capture cl m2 E2) as (x & d & Hg & Hx & Hlen & Hall).
    rewrite Hg in Ha. injection Ha as <-.
    cbn [length forallb]. unfold is_letter at 1. rewrite Hx.
    rewrite (lower_is_letter d Hall). split; [lia | reflexivity].
Qed.

(** X15.  A due phrase, when there is one, is not empty and is made of
    ASCII letters, digits, spaces, commas, periods and hyphens only. *)
Theorem due_is_a_phrase (text : jsstring) :
  exists r, mockExtract text = Normal r /\
            forall t d, In t (tasks r) -> due t = Some d ->
                        1 <= length d /\ forallb is_due_char d = true.
Proof.
  rewrite mockExtract_eq. eexists. split; [reflexivity |].
  cbn [tasks]. intros t d Ht Hd.
  destruct (tasks_of_cases text t Ht) as [-> | (line & _ & _ & ->)];
    [discriminate |].
  unfold task_of in Hd. cbn [due] in Hd.
  set (cl := replace_all false re_bullet [] line) in Hd.
  destruct (match_ true re_due cl) as [m |] eqn:E; [| discriminate].
  cbn [opt_group] in Hd.
  destruct (due_capture cl m E) as (d' & Hg & Hlen & Hall).
  rewrite Hg in Hd. injection Hd as <-. auto.
Qed.

(** ** [callOpenAIExtract]: its failures and its results *)

Lemma response_of_normal v r :
  response_of v = Normal r ->
  exists f, followUp r = tidy f.
Proof.
  unfold response_of. destruct (JSON.get v (str "tasks")) as [t |];
    [| discriminate].
  cbn [bind]. destruct (JSON.get v (str "followUp")) as [f |];
    [| discriminate].
  cbn [bind].
  destruct (JSON.nullish_or f (JSON.String_ [])) as [| | | s | |];
    try discriminate.
  cbn [tidy_value bind]. intros H. injection H as <-.
  exists s. reflexivity.
Qed.

Lemma attempt_cases c :
  (exists r v, JSON.parse c = Normal v /\ response_of v = Normal r /\
               (parsed <- JSON.parse c ;; response_of parsed) = Normal r) \/
  (exists e, (parsed <- JSON.parse c ;; response_of parsed) = Throw e).
Proof.
  destruct (JSON.parse c) as [v |] eqn:Ep; cbn [bind].
  - destruct (response_of v) as [r |] eqn:Er.
    + left. exists r, v. auto.
    + right. eexists. reflexivity.
  - right. eexists. reflexivity.
Qed.

Lemma parse_content_cases c :
  (exists r v, parse_content c = Normal r /\ response_of v = Normal r) \/
  parse_content c = Throw (Error_ msg_unparsed).
Proof.
  unfold parse_content.
  destruct (attempt_cases c) as [(r & v & _ & Hr & ->) | (e & ->)];
    cbn [try_catch].
  - left. exists r, v. auto.
  - destruct (match_ false re_json c) as [m |]; [| right; reflexivity].
    destruct (attempt_cases (m_text m)) as [(r & v & _ & Hr & ->) | (e' & ->)];
      cbn [try_catch].
    + left. exists r, v. auto.
    + right. reflexivity.
Qed.

Lemma read_content_cases number_to_string content :
  (exists r v, read_content number_to_string content = Normal r /\
               response_of v = Normal r) \/
  (is_string content = true /\
   read_content number_to_string content = Throw (Error_ msg_unparsed)) \/
  (is_string content = false /\
   read_content number_to_string content = Throw TypeError).
Proof.
  assert (H : forall m : Completion jsstring,
             (exists r v,
                 try_catch (s <- m ;; parsed <- JSON.parse s ;;
                            response_of parsed)
                   (fun _ => Throw TypeError) = Normal r /\
                 response_of v = Normal r) \/
             try_catch (s <- m ;; parsed <- JSON.parse s ;;
                        response_of parsed)
               (fun _ => Throw TypeError) = Throw TypeError).
  { intros [s | e]; cbn [bind]; [| right; reflexivity].
    destruct (attempt_cases s) as [(r & v & _ & Hr & ->) | (e & ->)];
      cbn [try_catch]; [left; exists r, v; auto | right; reflexivity]. }
  destruct content as [| b | l | s | items | ms]; cbn [read_content is_string];
    try (destruct (H (to_string number_to_string JSON.Null)) as [H' | H'];
         [left; exact H' | right; right; split; [reflexivity | exact H']]);
    try (destruct (H (to_string number_to_string (JSON.Bool b))) as [H' | H'];
         [left; exact H' | right; right; split; [reflexivity | exact H']]);
    try (destruct (H (to_string number_to_string (JSON.Number l)))
           as [H' | H'];
         [left; exact H' | right; right; split; [reflexivity | exact H']]);
    try (destruct (H (to_string number_to_string (JSON.Array items)))
           as [H' | H'];
         [left; exact H' | right; right; split; [reflexivity | exact H']]);
    try (destruct (H (to_string number_to_string (JSON.Object ms)))
           as [H' | H'];
         [left; exact H' | right; right; split; [reflexivity | exact H']]).
  destruct (parse_content_cases s) as [H' | H'];
    [left; exact H' | right; left; split; [reflexivity | exact H']].
Qed.

(** X16.  The model-backed extractor fails in these ways only: the key is
    not set; the service call itself fails, and its error is passed on; the
    service answers with a status that is not ok, and the error is the one
    of reading the body as text, or else carries the status and that text;
    the answer is ok and the error is the one of reading the body as JSON;
    the content is a string that cannot be read; the content is no string
    and cannot be read, which ends in a TypeError. *)
Theorem callOpenAIExtract_failures
    (number_to_string : jsstring -> jsstring)
    (key : jsstring) (fetch : jsstring -> Completion Response)
    (text : jsstring) (e : Error) :
  callOpenAIExtract number_to_string key fetch text = Throw e ->
  (key = [] /\ e = Error_ (str "OpenAI API key not set")) \/
  (key <> [] /\ fetch (prompt_of text) = Throw e) \/
  (key <> [] /\ exists resp,
      fetch (prompt_of text) = Normal resp /\
      ((ok resp = false /\
        (body resp = Throw e \/
         exists b, body resp = Normal b /\
                   e = Error_ (str "OpenAI error: " ++ decimal (status resp)
                               ++ str " " ++ b))) \/
       (ok resp = true /\
        (json resp = Throw e \/
         exists data, json resp = Normal data /\
           ((is_string (JSON.nullish_or (content_of data) (JSON.String_ []))
             = true /\
             e = Error_ (str "OpenAI response could not be parsed as JSON"))
            \/
            (is_string (JSON.nullish_or (content_of data) (JSON.String_ []))
             = false /\
             e = TypeError)))))).
Proof.
  unfold callOpenAIExtract. destruct key as [| k key]; cbn [truthy negb].
  - intros H. injection H as <-. left. auto.
  - assert (Hk : k :: key <> []) by discriminate.
    destruct (fetch (prompt_of text)) as [resp | e'] eqn:Ef; cbn [bind].
    + destruct (ok resp) eqn:Eok; cbn [negb].
      * intros H. right. right. split; [exact Hk |]. exists resp.
        split; [reflexivity |]. right. split; [exact Eok |].
        destruct (json resp) as [data | e'] eqn:Ej; cbn [bind] in H.
        -- right. exists data. split; [reflexivity |].
           destruct (read_content_cases number_to_string
                       (JSON.nullish_or (content_of data) (JSON.String_ [])))
             as [(r & v & Hr & _) | [[Hs Hr] | [Hs Hr]]]; rewrite Hr in H.
           ++ discriminate.
           ++ injection H as <-. left. auto.
           ++ injection H as <-. right. auto.
        -- injection H as <-. left. reflexivity.
      * intros H. right. right. split; [exact Hk |].
        exists resp. split; [reflexivity |]. left. split; [exact Eok |].
        destruct (body resp) as [b | e'] eqn:Eb; cbn [bind] in H;
          injection H as <-.
        -- right. exists b. auto.
        -- left. reflexivity.
    + intros H. injection H as <-. right. left. auto.
Qed.

Lemma callOpenAIExtract_failures_witness :
  callOpenAIExtract as_written (str "sk-test") (fun _ => Normal parts_answer)
    (str "notes") = Throw TypeError.
Proof.
  destruct (callOpenAIExtract as_written (str "sk-test")
              (fun _ => Normal parts_answer) (str "notes")) as [r | e] eqn:E.
  - vm_compute in E. discriminate E.
  - destruct (callOpenAIExtract_failures _ _ _ _ e E)
      as [[Hk _] | [[_ Hf] | (_ & resp & Hf & [[Hok _] | [_ [Hj | Hd]]])]].
    + discriminate Hk.
    + discriminate Hf.
    + injection Hf as <-. discriminate Hok.
    + injection Hf as <-. discriminate Hj.
    + injection Hf as <-. destruct Hd as (data & Hj & [[Hs _] | [_ He]]).
      * injection Hj as <-. discriminate Hs.
      * rewrite He. reflexivity.
Defined.

(** The errors of reading the body pass through the function as they are:
    a body that is no JSON text, and a status that is not ok. *)
Remark body_errors_pass :
  callOpenAIExtract as_written (str "sk-test") (fun _ => Normal broken_answer)
    (str "notes") = Throw SyntaxError /\
  callOpenAIExtract as_written (str "sk-test") (fun _ => Normal busy_answer)
    (str "notes") =
  Throw (Error_ (str "OpenAI error: 429 rate limit reached")).
Proof. split; vm_compute; reflexivity. Qed.

(** X17.  The model-backed extractor returns a result only when the key is
    set and the service has answered with an ok status, and the follow-up
    of that result is normalized text: it has been through [tidy]. *)
Theorem callOpenAIExtract_result
    (number_to_string : jsstring -> jsstring)
    (key : jsstring) (fetch : jsstring -> Completion Response)
    (text : jsstring) (r : ResponseBody JSON.value) :
  callOpenAIExtract number_to_string key fetch text = Normal r ->
  key <> [] /\
  (exists resp, fetch (prompt_of text) = Normal resp /\ ok resp = true) /\
  space_before_punct (followUp r) = false /\
  double_period (followUp r) = false /\
  double_space (followUp r) = false /\
  hd_sat is_space (followUp r) = false /\
  hd_sat is_space (rev (followUp r)) = false.
Proof.
  unfold callOpenAIExtract. destruct key as [| k key]; cbn [truthy negb];
    [discriminate |].
  destruct (fetch (prompt_of text)) as [resp | e'] eqn:Ef; cbn [bind];
    [| discriminate].
  destruct (ok resp) eqn:Eok; cbn [negb];
    [| destruct (body resp); discriminate].
  destruct (json resp) as [data | e'] eqn:Ej; cbn [bind]; [| discriminate].
  intros H. split; [discriminate |]. split; [exists resp; auto |].
  destruct (read_content_cases number_to_string
              (JSON.nullish_or (content_of data) (JSON.String_ [])))
    as [(r' & v & Hr & Hv) | [[_ Hr] | [_ Hr]]]; rewrite Hr in H;
    try discriminate.
  injection H as <-. apply response_of_normal in Hv. destruct Hv as [f ->].
  exact (tidy_normalized f).
Qed.

Lemma callOpenAIExtract_result_witness :
  exists r,
    callOpenAIExtract as_written (str "sk-test")
      (fun _ => Normal wordy_answer) (str "notes") = Normal r /\
    followUp r = str "Call Bob. soon." /\
    double_period (followUp r) = false.
Proof.
  eexists. split; [vm_compute; reflexivity |]. split; [reflexivity |].
  refine (proj1 (proj2 (proj2 (proj2
    (callOpenAIExtract_result as_written (str "sk-test")
       (fun _ => Normal wordy_answer) (str "notes") _ _))))).
  vm_compute. reflexivity.
Defined.






(** ** The action words *)

Lemma exec_from_complete ic r : forall pre bef aft m,
  match_at ic r (rev pre ++ bef) aft = Some m ->
  exists m', exec_from ic r bef (pre ++ aft) = Some m'.
Proof.
  induction pre as [| c pre IH]; intros bef aft m H.
  - cbn [rev app] in *. destruct aft; cbn [exec_from]; rewrite H; eauto.
  - cbn [app exec_from].
    destruct (match_at ic r bef (c :: pre ++ aft)) as [m0 |]; [eauto |].
    apply (IH (c :: bef) aft m). cbn [rev] in H.
    rewrite <- app_assoc in H. exact H.
Qed.

Lemma alts_some ic x c : forall rs r z,
  In r rs -> matcher ic r x c = Some z ->
  exists z', matcher ic (alts rs) x c = Some z'.
Proof.
  induction rs as [| r0 rs IH]; intros r z Hin Hm; [contradiction |].
  cbn [alts]. destruct rs as [| r1 rs'].
  - destruct Hin as [<- | []]. eauto.
  - cbn [matcher]. destruct (matcher ic r0 x c) as [z0 |] eqn:E0; [eauto |].
    destruct Hin as [<- | Hin]; [congruence |].
    destruct (IH r z Hin Hm) as [z' Hz']. rewrite Hz'. eauto.
Qed.

(** A word written with the letters of [k], in any case, is matched by the
    literal [k] under the flag [i]. *)
Lemma word_match : forall k w bef post caps c,
  same_word w k ->
  matcher true (cat (List.map Char k)) (mkState bef (w ++ post) caps) c =
  c (mkState (rev w ++ bef) post caps).
Proof.
  unfold same_word.
  induction k as [| l k IH]; intros w bef post caps c H.
  - destruct w; [reflexivity | discriminate].
  - destruct w as [| a w]; [discriminate |].
    cbn [List.map] in H. injection H as Ha Hw.
    cbn [List.map cat fold_right]. rewrite matcher_seq.
    cbn [matcher]. unfold char_step. cbn [after app before captures].
    unfold same_char. rewrite Ha, N.eqb_refl.
    fold (cat (List.map Char k)). rewrite (IH w (a :: bef) post caps c Hw).
    cbn [rev]. rewrite <- app_assoc. reflexivity.
Qed.

Lemma same_letter_word_char c l :
  canonicalize true c = canonicalize true l -> is_lower l = true ->
  is_word_char c = true.
Proof.
  unfold canonicalize, is_word_char, is_upper, is_lower, is_digit, char_in.
  cbn [andb]. intros H Hl. rewrite Hl in H.
  apply andb_true_iff in Hl. destruct Hl as [Hl1 Hl2].
  apply N.leb_le in Hl1, Hl2.
  destruct ((97 <=? c)%N && (c <=? 122)%N) eqn:Hc.
  - rewrite !orb_true_r. reflexivity.
  - assert (E : (65 <=? c)%N && (c <=? 90)%N = true).
    { apply andb_true_iff. split; apply N.leb_le; lia. }
    rewrite E. reflexivity.
Qed.

Lemma action_word_letters k :
  In k action_words -> k <> [] /\ forallb is_lower k = true.
Proof.
  unfold action_words. cbn [In].
  intros [<- | [<- | [<- | [<- | [<- | [<- | [<- | [<- | []]]]]]]]];
    split; (discriminate || reflexivity).
Qed.

Lemma action_word_alternative k :
  In k action_words ->
  In (cat (List.map Char k))
     [lit "action"; lit "action:"; lit "please"; lit "will"; lit "assign";
      lit "assigned"; lit "due"; lit "deliver"; lit "todo"].
Proof.
  unfold action_words. cbn [In].
  intros [<- | [<- | [<- | [<- | [<- | [<- | [<- | [<- | []]]]]]]]];
    unfold lit; tauto.
Qed.

Lemma same_word_ends w k :
  same_word w k -> k <> [] -> forallb is_lower k = true ->
  hd_sat is_word_char w = true /\ hd_sat is_word_char (rev w) = true.
Proof.
  unfold same_word. intros H Hne Hk.
  assert (Hall : forall w' k', List.map (canonicalize true) w' =
                               List.map (canonicalize true) k' ->
                               forallb is_lower k' = true ->
                               forallb is_word_char w' = true).
  { induction w' as [| a w' IH]; intros k' E Hk'; [reflexivity |].
    destruct k' as [| l k']; [discriminate |].
    cbn [List.map] in E. injection E as Ea Ew.
    cbn [forallb] in *. apply andb_true_iff in Hk'. destruct Hk' as [Hl Hk'].
    rewrite (same_letter_word_char a l Ea Hl). apply (IH k' Ew Hk'). }
  specialize (Hall w k H Hk).
  assert (Hw : w <> []).
  { intros ->. destruct k; [contradiction | discriminate]. }
  split.
  - destruct w as [| a w']; [contradiction |].
    cbn [forallb hd_sat] in *. apply andb_true_iff in Hall. apply Hall.
  - assert (Hr : forallb is_word_char (rev w) = true).
    { rewrite forallb_forall in *. intros x Hx. apply Hall.
      apply in_rev. exact Hx. }
    destruct (rev w) as [| a r] eqn:Er.
    + apply (f_equal (@rev char)) in Er. rewrite rev_involutive in Er.
      contradiction.
    + cbn [forallb hd_sat] in *. apply andb_true_iff in Hr. apply Hr.
Qed.

(** X19.  A line that holds one of the words action, please, will, assign,
    assigned, due, deliver, todo, in any case of its letters and standing
    as a word of its own, is an action line. *)
Theorem action_word_makes_action_line (pre w post k : jsstring) :
  In k action_words ->
  same_word w k ->
  hd_sat is_word_char (rev pre) = false ->
  hd_sat is_word_char post = false ->
  action_line (pre ++ w ++ post) = true.
Proof.
  intros Hk Hw Hpre Hpost. unfold action_line.
  apply orb_true_iff. right. unfold test, match_.
  destruct (action_word_letters k Hk) as [Hne Hlow].
  destruct (same_word_ends w k Hw Hne Hlow) as [Hfirst Hlast].
  assert (Hm : exists z,
             matcher true re_action (mkState (rev pre) (w ++ post) []) Some
             = Some z).
  { unfold re_action. cbn [cat fold_right]. rewrite matcher_seq.
    cbn [matcher]. unfold word_before, word_after.
    cbn [before after].
    assert (Ha : hd_sat is_word_char (w ++ post) = true).
    { rewrite hd_sat_app. destruct w; [discriminate Hfirst | exact Hfirst]. }
    fold (hd_sat is_word_char (rev pre)). fold (hd_sat is_word_char (w ++ post)).
    rewrite Hpre, Ha. cbn [xorb].
    assert (Hb : hd_sat is_word_char (rev w ++ rev pre) = true).
    { rewrite hd_sat_app. destruct (rev w); [discriminate Hlast | exact Hlast]. }
    eapply (alts_some true _ _ _ (cat (List.map Char k)));
      [apply action_word_alternative, Hk |].
    rewrite (word_match k w (rev pre) post [] _ Hw).
    cbn [before after captures].
    fold (hd_sat is_word_char post).
    fold (hd_sat is_word_char (rev w ++ rev pre)).
    rewrite Hb, Hpost. cbn [xorb]. reflexivity. }
  destruct Hm as [z Hz].
  assert (Hat : exists m, match_at true re_action (rev pre ++ [])
                            (w ++ post) = Some m).
  { rewrite app_nil_r. unfold match_at. rewrite Hz. eauto. }
  destruct Hat as [m Hat].
  destruct (exec_from_complete true re_action pre [] (w ++ post) m Hat)
    as [m' ->].
  reflexivity.
Qed.

Lemma action_word_makes_action_line_witness :
  action_line (str "Alice WILL send the slides.") = true.
Proof.
  apply (action_word_makes_action_line (str "Alice ") (str "WILL")
           (str " send the slides.") (str "will")).
  - right. right. left. reflexivity.
  - reflexivity.
  - reflexivity.
  - reflexivity.
Defined.

(** ** The page: [handleAnalyze] *)

Lemma eqs_refl a : eqs a a = true.
Proof. induction a; cbn; [reflexivity |]. rewrite N.eqb_refl. exact IHa. Qed.

Lemma eqs_true a : forall b, eqs a b = true -> a = b.
Proof.
  induction a as [| x a IH]; intros [| y b] H; try discriminate; [reflexivity |].
  cbn in H. apply andb_true_iff in H. destruct H as [H1 H2].
  apply N.eqb_eq in H1. f_equal; [exact H1 | apply IH, H2].
Qed.

Lemma lookup_set_member key v : forall ms,
  JSON.lookup key (Home.set_member key v ms) = Some v.
Proof.
  induction ms as [| [k x] rest IH].
  - cbn. rewrite eqs_refl. reflexivity.
  - cbn [Home.set_member].
    destruct (JSON.lookup key rest) eqn:E.
    + cbn [JSON.lookup]. rewrite IH. reflexivity.
    + destruct (eqs k key) eqn:Ek.
      * cbn [JSON.lookup]. rewrite E, Ek. reflexivity.
      * cbn [JSON.lookup]. rewrite IH. reflexivity.
Qed.

Lemma lookup_set_member_other key v k' :
  eqs key k' = false ->
  forall ms, JSON.lookup k' (Home.set_member key v ms) = JSON.lookup k' ms.
Proof.
  intros Hk. induction ms as [| [k x] rest IH].
  - cbn. rewrite Hk. reflexivity.
  - cbn [Home.set_member].
    destruct (JSON.lookup key rest) eqn:E.
    + cbn [JSON.lookup]. rewrite IH. reflexivity.
    + destruct (eqs k key) eqn:Ek.
      * cbn [JSON.lookup]. apply eqs_true in Ek. subst k. rewrite Hk.
        reflexivity.
      * cbn [JSON.lookup]. rewrite IH. reflexivity.
Qed.

Lemma set_member_same key v : forall ms,
  JSON.lookup key ms = Some v -> Home.set_member key v ms = ms.
Proof.
  induction ms as [| [k x] rest IH]; intros H; [discriminate |].
  cbn [JSON.lookup] in H. cbn [Home.set_member].
  destruct (JSON.lookup key rest) eqn:E.
  - rewrite (IH H). reflexivity.
  - destruct (eqs k key); [| discriminate]. congruence.
Qed.

(** X20.  A call of [handleAnalyze] leaves the text of the input field
    alone, and [loading] is off at its end (it keeps its value only when
    there was no text to send).  With no text to send nothing changes.
    Otherwise the text is sent and one of two things happens: the answer
    arrives and is cleaned, the cleaned answer is stored as the result and
    no error is shown; or the request or the cleaning fails, that error is
    shown and the page keeps the result it had. *)
Theorem handleAnalyze_outcome
    (number_to_boolean : jsstring -> bool)
    (post_extract : jsstring -> Completion JSON.value)
    (text : option jsstring) (ui : Home.UI) :
  let ui' := Home.handleAnalyze number_to_boolean post_extract text ui in
  Home.input ui' = Home.input ui /\
  Home.loading ui' = eqs (Home.payload text ui) [] && Home.loading ui /\
  ((Home.payload text ui = [] /\ ui' = ui) \/
   (Home.payload text ui <> [] /\
    exists data d,
      post_extract (Home.payload text ui) = Normal data /\
      Home.clean_data number_to_boolean data = Normal d /\
      Home.result ui' = d /\
      Home.alerts ui' = Home.alerts ui) \/
   (Home.payload text ui <> [] /\
    exists e,
      (post_extract (Home.payload text ui) = Throw e \/
       exists data, post_extract (Home.payload text ui) = Normal data /\
                    Home.clean_data number_to_boolean data = Throw e) /\
      Home.result ui' = Home.result ui /\
      Home.alerts ui' = e :: Home.alerts ui)).
Proof.
  cbv zeta. unfold Home.handleAnalyze.
  destruct (eqs (Home.payload text ui) []) eqn:E.
  - apply eqs_true in E. repeat split; auto.
  - assert (Hne : Home.payload text ui <> []).
    { intros H. rewrite H in E. discriminate. }
    split; [| split].
    + destruct (data <- post_extract (Home.payload text ui) ;;
                Home.clean_data number_to_boolean data); reflexivity.
    + destruct (data <- post_extract (Home.payload text ui) ;;
                Home.clean_data number_to_boolean data); reflexivity.
    + right.
      destruct (post_extract (Home.payload text ui)) as [data | e] eqn:Ep;
        cbn [bind].
      * destruct (Home.clean_data number_to_boolean data) as [d | e] eqn:Ec.
        -- left. split; [exact Hne |]. exists data, d. auto.
        -- right. split; [exact Hne |]. exists e. split; [| auto].
           right. exists data. auto.
      * right. split; [exact Hne |]. exists e. auto.
Qed.

Lemma cleanFollowUp_is_tidy x : cleanFollowUp x = tidy x.
Proof. reflexivity. Qed.

Lemma handleAnalyze_reply
    (number_to_boolean : jsstring -> bool)
    (post_extract : jsstring -> Completion JSON.value)
    (text : option jsstring) (ui : Home.UI) (data : JSON.value) :
  Home.payload text ui <> [] ->
  post_extract (Home.payload text ui) = Normal data ->
  Home.handleAnalyze number_to_boolean post_extract text ui =
  match Home.clean_data number_to_boolean data with
  | Normal d => Home.mkUI (Home.input ui) d false (Home.alerts ui)
  | Throw e =>
      Home.mkUI (Home.input ui) (Home.result ui) false (e :: Home.alerts ui)
  end.
Proof.
  intros Hne Hr. unfold Home.handleAnalyze.
  destruct (eqs (Home.payload text ui) []) eqn:E.
  - apply eqs_true in E. contradiction.
  - rewrite Hr. cbn [bind].
    destruct (Home.clean_data number_to_boolean data); reflexivity.
Qed.

(** X21.  When the server answers an object whose [followUp] is a
    non-empty string, the result stored is that object with [followUp]
    tidied: a normalized text, the one [tidy] gives; every other member
    reads as the server sent it, and no error is shown. *)
Theorem handleAnalyze_cleans_followUp
    (number_to_boolean : jsstring -> bool)
    (post_extract : jsstring -> Completion JSON.value)
    (text : option jsstring) (ui : Home.UI)
    (ms : list (jsstring * JSON.value)) (f : jsstring) :
  Home.payload text ui <> [] ->
  post_extract (Home.payload text ui) = Normal (JSON.Object ms) ->
  JSON.lookup (str "followUp") ms = Some (JSON.String_ f) ->
  f <> [] ->
  let ui' := Home.handleAnalyze number_to_boolean post_extract text ui in
  exists ms',
    Home.result ui' = JSON.Object ms' /\
    JSON.lookup (str "followUp") ms' = Some (JSON.String_ (tidy f)) /\
    normalized (tidy f) /\
    (forall k, eqs (str "followUp") k = false ->
               JSON.lookup k ms' = JSON.lookup k ms) /\
    Home.alerts ui' = Home.alerts ui.
Proof.
  intros Hne Hr Hf Hfne. cbv zeta.
  rewrite (handleAnalyze_reply _ _ _ _ _ Hne Hr).
  unfold Home.clean_data. rewrite Hf. cbn [Home.truthy].
  destruct f as [| c f']; [contradiction |]. cbn [eqs negb].
  cbn [Home.cleanFollowUp_value bind].
  rewrite cleanFollowUp_is_tidy.
  eexists. split; [reflexivity |]. split; [apply lookup_set_member |].
  split; [apply tidy_normalized |]. split; [| reflexivity].
  intros k Hk. apply lookup_set_member_other, Hk.
Qed.

Lemma handleAnalyze_cleans_followUp_witness :
  exists ms',
    Home.result
      (Home.handleAnalyze (fun _ => true)
         (fun _ => Normal (JSON.Object
                     [(str "tasks", JSON.Array []);
                      (str "followUp", JSON.String_ (str "All done  ..  "))]))
         None (Home.setInput (str "notes") Home.initial))
    = JSON.Object ms' /\
    JSON.lookup (str "followUp") ms'
    = Some (JSON.String_ (tidy (str "All done  ..  "))) /\
    normalized (tidy (str "All done  ..  ")) /\
    (forall k, eqs (str "followUp") k = false ->
               JSON.lookup k ms' =
               JSON.lookup k
                 [(str "tasks", JSON.Array []);
                  (str "followUp", JSON.String_ (str "All done  ..  "))]) /\
    Home.alerts
      (Home.handleAnalyze (fun _ => true)
         (fun _ => Normal (JSON.Object
                     [(str "tasks", JSON.Array []);
                      (str "followUp", JSON.String_ (str "All done  ..  "))]))
         None (Home.setInput (str "notes") Home.initial))
    = Home.alerts (Home.setInput (str "notes") Home.initial).
Proof.
  apply (handleAnalyze_cleans_followUp (fun _ => true)
           (fun _ => Normal (JSON.Object
                       [(str "tasks", JSON.Array []);
                        (str "followUp", JSON.String_ (str "All done  ..  "))]))
           None (Home.setInput (str "notes") Home.initial)
           [(str "tasks", JSON.Array []);
            (str "followUp", JSON.String_ (str "All done  ..  "))]
           (str "All done  ..  ")).
  - discriminate.
  - reflexivity.
  - reflexivity.
  - discriminate.
Defined.

(** X22.  When the server answers an object whose [followUp] counts as
    true but is no string (the boolean true, an array, an object, a number
    that is not zero), [cleanFollowUp] fails on it: a TypeError is shown
    and the result the page had stays. *)
Theorem handleAnalyze_followUp_not_a_string
    (number_to_boolean : jsstring -> bool)
    (post_extract : jsstring -> Completion JSON.value)
    (text : option jsstring) (ui : Home.UI)
    (ms : list (jsstring * JSON.value)) (v : JSON.value) :
  Home.payload text ui <> [] ->
  post_extract (Home.payload text ui) = Normal (JSON.Object ms) ->
  JSON.lookup (str "followUp") ms = Some v ->
  Home.truthy number_to_boolean (Some v) = true ->
  (forall s, v <> JSON.String_ s) ->
  let ui' := Home.handleAnalyze number_to_boolean post_extract text ui in
  Home.alerts ui' = TypeError :: Home.alerts ui /\
  Home.result ui' = Home.result ui.
Proof.
  intros Hne Hr Hf Ht Hs. cbv zeta.
  rewrite (handleAnalyze_reply _ _ _ _ _ Hne Hr).
  unfold Home.clean_data. rewrite Hf, Ht.
  destruct v as [| b | l | s | items | members];
    try (cbn; split; reflexivity).
  exfalso. apply (Hs s). reflexivity.
Qed.

Lemma handleAnalyze_followUp_not_a_string_witness :
  Home.alerts
    (Home.handleAnalyze (fun _ => true)
       (fun _ => Normal (JSON.Object [(str "followUp", JSON.Bool true)]))
       (Some (str "notes")) Home.initial)
  = TypeError :: Home.alerts Home.initial /\
  Home.result
    (Home.handleAnalyze (fun _ => true)
       (fun _ => Normal (JSON.Object [(str "followUp", JSON.Bool true)]))
       (Some (str "notes")) Home.initial)
  = Home.result Home.initial.
Proof.
  apply (handleAnalyze_followUp_not_a_string (fun _ => true)
           (fun _ => Normal (JSON.Object [(str "followUp", JSON.Bool true)]))
           (Some (str "notes")) Home.initial
           [(str "followUp", JSON.Bool true)] (JSON.Bool true)).
  - discriminate.
  - reflexivity.
  - reflexivity.
  - reflexivity.
  - discriminate.
Defined.

(** X23.  The cleaning of the page changes nothing in an answer whose
    [followUp] came out of [tidy], as that of both extractors does: the
    result stored is the object the server sent. *)
Theorem handleAnalyze_keeps_tidied_answer
    (number_to_boolean : jsstring -> bool)
    (post_extract : jsstring -> Completion JSON.value)
    (text : option jsstring) (ui : Home.UI)
    (ms : list (jsstring * JSON.value)) (s : jsstring) :
  Home.payload text ui <> [] ->
  post_extract (Home.payload text ui) = Normal (JSON.Object ms) ->
  JSON.lookup (str "followUp") ms = Some (JSON.String_ (tidy s)) ->
  let ui' := Home.handleAnalyze number_to_boolean post_extract text ui in
  Home.result ui' = JSON.Object ms /\ Home.alerts ui' = Home.alerts ui.
Proof.
  intros Hne Hr Hf. cbv zeta.
  rewrite (handleAnalyze_reply _ _ _ _ _ Hne Hr).
  unfold Home.clean_data. rewrite Hf. cbn [Home.truthy].
  destruct (negb (eqs (tidy s) [])); [| split; reflexivity].
  cbn [Home.cleanFollowUp_value bind].
  rewrite cleanFollowUp_is_tidy.
  rewrite (tidy_fix (tidy s) (tidy_normalized s)).
  rewrite (set_member_same _ _ ms Hf). split; reflexivity.
Qed.

Lemma handleAnalyze_keeps_tidied_answer_witness :
  Home.result
    (Home.handleAnalyze (fun _ => false)
       (fun _ => Normal (JSON.Object
                   [(str "followUp", JSON.String_ (tidy (str "Thanks  all .")));
                    (str "tasks", JSON.Array [])]))
       (Some (str "notes")) Home.initial)
  = JSON.Object [(str "followUp", JSON.String_ (tidy (str "Thanks  all .")));
                 (str "tasks", JSON.Array [])] /\
  Home.alerts
    (Home.handleAnalyze (fun _ => false)
       (fun _ => Normal (JSON.Object
                   [(str "followUp", JSON.String_ (tidy (str "Thanks  all .")));
                    (str "tasks", JSON.Array [])]))
       (Some (str "notes")) Home.initial)
  = Home.alerts Home.initial.
Proof.
  apply (handleAnalyze_keeps_tidied_answer (fun _ => false)
           (fun _ => Normal (JSON.Object
                       [(str "followUp",
                         JSON.String_ (tidy (str "Thanks  all .")));
                        (str "tasks", JSON.Array [])]))
           (Some (str "notes")) Home.initial
           [(str "followUp", JSON.String_ (tidy (str "Thanks  all .")));
            (str "tasks", JSON.Array [])]
           (str "Thanks  all .")).
  - discriminate.
  - reflexivity.
  - vm_compute. reflexivity.
Defined.
